(** * har-capture: a shallow embedding of the capture engine and the
    operation store, with the properties of its specification.

  The development follows the package layout of the repository:

  - [Network]: the slice of the DevTools protocol data the code reads
    (cdproto's network and page packages);
  - [Capture]: internal/capture (events.go, collector.go, har.go and
    capture.go);
  - [Operation]: internal/operation (operation.go and worker.go).

  Conventions.  A Go [map] is a [gmap]; a method that runs under a mutex is
  one atomic function on the guarded state; [time.Time] and
  [time.Duration] are integers (nanoseconds); Chrome's float64 millisecond
  offsets are exact rationals ([Q]); a nil-able pointer is an [option]; a
  Go [error] is an inductive type whose wrapping chain [errors.Is] walks. *)

From Stdlib Require Import ZArith QArith Qround Lqa List Bool String Permutation Sorted Lia.
From stdpp Require Import gmap strings list fin_maps sorting pretty.

Import ListNotations.

(* ===================================================================== *)
(** ** The protocol data the capture engine consumes *)
(* ===================================================================== *)

Module Network.

(** [network.RequestID] and [network.ResourceType] are string types. *)
Abbreviation RequestID := string.
Abbreviation ResourceType := string.

Definition ResourceTypeDocument : ResourceType := "Document"%string.

(** [network.Headers] is [map[string]any].  The values the code
    distinguishes are a single string and a [[]string]. *)
Inductive any : Type :=
| AString (s : string)
| AStrings (l : list string).

Abbreviation Headers := (gmap string any).

(** [fmt.Sprint] on the two shapes of header value: a string prints as
    itself, a slice as its elements between brackets, separated by
    spaces. *)
Fixpoint join_space (l : list string) : string :=
  match l with
  | [] => EmptyString
  | [s] => s
  | s :: rest => s +:+ " " +:+ join_space rest
  end.

Definition Sprint (v : any) : string :=
  match v with
  | AString s => s
  | AStrings l => "[" +:+ join_space l +:+ "]"
  end.

(** [network.ResourceTiming]: offsets in milliseconds relative to
    [RequestTime]; a negative offset means that the phase did not occur. *)
Record ResourceTiming : Type := mkResourceTiming {
  RequestTime : Q;
  DNSStart : Q;
  DNSEnd : Q;
  ConnectStart : Q;
  ConnectEnd : Q;
  SslStart : Q;
  SslEnd : Q;
  SendStart : Q;
  SendEnd : Q;
  ReceiveHeadersStart : Q;
  ReceiveHeadersEnd : Q
}.

Record Response : Type := mkResponse {
  Status : Z;
  StatusText : string;
  RespHeaders : Headers;
  MimeType : string;
  Protocol : string;
  Timing : option ResourceTiming
}.

Record Request : Type := mkRequest {
  Method : string;
  URL : string;
  ReqHeaders : Headers
}.

Record EventRequestWillBeSent : Type := mkEventRequestWillBeSent {
  SentRequestID : RequestID;
  SentRequest : Request;
  WallTime : Z;
  SentType : ResourceType
}.

Record EventResponseReceived : Type := mkEventResponseReceived {
  RecvRequestID : RequestID;
  RecvResponse : Response
}.

End Network.

(* ===================================================================== *)
(** ** Go errors *)
(* ===================================================================== *)

Module Errors.

(** The error values the code builds and inspects: the two sentinels of
    package context, an error made of a message ([errors.New], or
    [fmt.Errorf] without the wrapping verb), and an error that wraps
    another one ([fmt.Errorf] with the wrapping verb), which carries its
    rendered message. *)
Inductive error : Type :=
| DeadlineExceeded
| Canceled
| errorString (msg : string)
| wrapError (msg : string) (err : error).

Definition Error (e : error) : string :=
  match e with
  | DeadlineExceeded => "context deadline exceeded"
  | Canceled => "context canceled"
  | errorString msg => msg
  | wrapError msg _ => msg
  end.

(** [fmt.Errorf(prefix + "%w", err)]. *)
Definition Errorf_w (prefix : string) (err : error) : error :=
  wrapError (prefix +:+ Error err) err.

(** [err == target] for a sentinel [target]. *)
Definition is_sentinel (err target : error) : bool :=
  match err, target with
  | DeadlineExceeded, DeadlineExceeded => true
  | Canceled, Canceled => true
  | _, _ => false
  end.

(** [errors.Is]: [err] or an error it wraps is [target]. *)
Fixpoint errors_Is (err target : error) : bool :=
  is_sentinel err target ||
  match err with
  | wrapError _ inner => errors_Is inner target
  | _ => false
  end.

End Errors.

(* ===================================================================== *)
(** ** internal/capture *)
(* ===================================================================== *)

Module Capture.
Import Network Errors.

(* ------------------------------------------------------------------- *)
(** *** events.go: the correlator *)

Record pendingRequest : Type := mkPendingRequest {
  requestID : RequestID;
  method : string;
  url : string;
  headers : Headers;
  wallTime : Z;
  resourceType : ResourceType;
  pageRef : string
}.

Record completedEntry : Type := mkCompletedEntry {
  request : pendingRequest;
  response : EventResponseReceived
}.

(** [requestStore]: the [pending] map; [mu] makes each method atomic. *)
Abbreviation requestStore := (gmap string pendingRequest).

Definition newRequestStore : requestStore := ∅.

Definition addRequest (s : requestStore) (r : pendingRequest) : requestStore :=
  <[requestID r := r]> s.

(** [correlate] returns the entry and [true], or the zero entry and
    [false]; the pair is an [option] here. *)
Definition correlate (s : requestStore) (ev : EventResponseReceived)
  : option completedEntry * requestStore :=
  match s !! RecvRequestID ev with
  | None => (None, s)
  | Some req =>
      (Some {| request := req; response := ev |}, delete (RecvRequestID ev) s)
  end.

(** A sequence of calls on one store, and the entries it pairs. *)
Inductive call : Type :=
| CallAddRequest (r : pendingRequest)
| CallCorrelate (ev : EventResponseReceived).

Fixpoint run_calls (cs : list call) (s : requestStore)
  : requestStore * list completedEntry :=
  match cs with
  | [] => (s, [])
  | CallAddRequest r :: rest => run_calls rest (addRequest s r)
  | CallCorrelate ev :: rest =>
      let '(o, s') := correlate s ev in
      let '(s'', out) := run_calls rest s' in
      (s'', match o with Some e => e :: out | None => out end)
  end.

Definition registers (id : RequestID) (c : call) : bool :=
  match c with
  | CallAddRequest r => bool_decide (requestID r = id)
  | CallCorrelate _ => false
  end.

Definition pairs_id (id : RequestID) (e : completedEntry) : bool :=
  bool_decide (RecvRequestID (response e) = id).

(** 1 while [id] is pending, else 0. *)
Definition pending_count (id : RequestID) (s : requestStore) : nat :=
  match s !! id with Some _ => 1 | None => 0 end.

(* ------------------------------------------------------------------- *)
(** *** collector.go: the event collector *)

(** [har.Page]; [StartedDateTime] keeps the wall time itself, its
    RFC 3339 rendering is not modelled; [PageTimings] is the empty
    struct. *)
Record Page : Type := mkPage {
  PageID : string;
  PageStartedDateTime : Z;
  PageTitle : string
}.

(** The two dynamic types that travel on [resultCh]. *)
Inductive event : Type :=
| EvPage (p : Page)
| EvEntry (e : completedEntry).

(** [collector].  [resultCh] is the content of the buffered channel, oldest
    first.  [doneCh] and [doneOnce.ch] are one and the same channel: its
    state is the single field [doneClosed].  [onceDone] is
    [doneOnce.done]. *)
Record collector : Type := mkCollector {
  resultCh : list event;
  doneClosed : bool;
  onceDone : bool
}.

Definition resultCap : nat := 64.

Definition newCollector : collector :=
  {| resultCh := []; doneClosed := false; onceDone := false |}.

(** [c.resultCh <- v]: [None] when the buffer is full, where the sender
    blocks. *)
Definition send (c : collector) (v : event) : option collector :=
  if (length (resultCh c) <? resultCap)%nat
  then Some {| resultCh := resultCh c ++ [v];
               doneClosed := doneClosed c; onceDone := onceDone c |}
  else None.

(** [close(ch)]: closing a closed channel panics ([None]). *)
Definition close_chan (closed : bool) : option bool :=
  if closed then None else Some true.

(** [onceCloser.close] on [c.doneOnce]: [None] is a panic. *)
Definition onceCloser_close (c : collector) : option collector :=
  if negb (onceDone c)
  then match close_chan (doneClosed c) with
       | Some ch => Some {| resultCh := resultCh c; doneClosed := ch; onceDone := true |}
       | None => None
       end
  else Some c.

Definition markDone (c : collector) : option collector := onceCloser_close c.

(** The [select] of [wait].  With one case ready it is taken; with both
    ready the runtime picks one ([pick]); with none ready the caller
    blocks ([None]). *)
Inductive selected : Type := SelDone | SelCtx.

Definition select (c : collector) (ctxDone : bool) (pick : selected) : option selected :=
  match doneClosed c, ctxDone with
  | true, true => Some pick
  | true, false => Some SelDone
  | false, true => Some SelCtx
  | false, false => None
  end.

Definition accumulate (data : event) (acc : list Page * list completedEntry)
  : list Page * list completedEntry :=
  match data with
  | EvPage d => (acc.1 ++ [d], acc.2)
  | EvEntry d => (acc.1, acc.2 ++ [d])
  end.

(** [for len(c.resultCh) > 0 { c.accumulate(<-c.resultCh, ...) }] on the
    events buffered when the loop starts.  A sender that is blocked on the
    full channel at that time gets its value in only once the loop has made
    room; whether the loop still sees that value is a race, which is left
    out: the loop reads what is buffered. *)
Fixpoint drain (buf : list event) (acc : list Page * list completedEntry)
  : list Page * list completedEntry :=
  match buf with
  | [] => acc
  | v :: rest => drain rest (accumulate v acc)
  end.

Record waited : Type := mkWaited {
  pages : list Page;
  entries : list completedEntry;
  timedOut : bool;
  after : collector
}.

(** What [wait] does once its [select] is released through [sel]. *)
Definition released (c : collector) (sel : selected) : waited :=
  let acc := drain (resultCh c) ([], []) in
  {| pages := acc.1;
     entries := acc.2;
     timedOut := match sel with SelCtx => true | SelDone => false end;
     after := {| resultCh := []; doneClosed := doneClosed c; onceDone := onceDone c |} |}.

(** [wait] in a given state of the channels: [None] while it blocks. *)
Definition wait (c : collector) (ctxDone : bool) (pick : selected) : option waited :=
  released c <$> select c ctxDone pick.

(** The collector states a program reaches: from [newCollector] by [send],
    [markDone] and [wait]. *)
Inductive reachable : collector -> Prop :=
| reach_new : reachable newCollector
| reach_send c v c' : reachable c -> send c v = Some c' -> reachable c'
| reach_markDone c c' : reachable c -> markDone c = Some c' -> reachable c'
| reach_wait c expired pick w :
    reachable c -> wait c expired pick = Some w -> reachable (after w).

(** The pages, and the entries, among buffered events, oldest first. *)
Definition pages_of (buf : list event) : list Page :=
  omap (fun v => match v with EvPage p => Some p | EvEntry _ => None end) buf.

Definition entries_of (buf : list event) : list completedEntry :=
  omap (fun v => match v with EvEntry e => Some e | EvPage _ => None end) buf.

(** [n] calls of [markDone] in a row. *)
Fixpoint markDone_times (n : nat) (c : collector) : option collector :=
  match n with
  | O => Some c
  | S n' => markDone c ≫= markDone_times n'
  end.

(* ------------------------------------------------------------------- *)
(** *** har.go: the archive assembler *)

Record NameValuePair : Type := mkNameValuePair {
  Name : string;
  Value : string
}.

(** [har.Timings], in milliseconds. *)
Record Timings : Type := mkTimings {
  Blocked : Q;
  DNS : Q;
  Connect : Q;
  Ssl : Q;
  Send : Q;
  Wait : Q;
  Receive : Q
}.

Record HarRequest : Type := mkHarRequest {
  ReqMethod : string;
  ReqURL : string;
  ReqHTTPVersion : string;
  ReqHeaderPairs : list NameValuePair;
  ReqHeadersSize : Z;
  ReqBodySize : Z
}.

Record HarResponse : Type := mkHarResponse {
  RespStatus : Z;
  RespStatusText : string;
  RespHTTPVersion : string;
  RespHeaderPairs : list NameValuePair;
  ContentMimeType : string;
  ContentSize : Z;
  RedirectURL : string;
  RespHeadersSize : Z;
  RespBodySize : Z
}.

Record Entry : Type := mkEntry {
  Pageref : string;
  StartedDateTime : Z;
  Time : Q;
  EntryRequest : HarRequest;
  EntryResponse : HarResponse;
  EntryTimings : Timings
}.

Record HAR : Type := mkHAR {
  Version : string;
  BrowserName : string;
  BrowserVersion : string;
  CreatorName : string;
  CreatorVersion : string;
  Pages : list Page;
  Entries : list Entry
}.

(** The float64 comparisons [a < b] and [a >= b]. *)
Definition Qltb (a b : Q) : bool := negb (Qle_bool b a).
Definition Qgeb (a b : Q) : bool := Qle_bool b a.

Definition phaseOrBlocked (start end_ : Q) : Q :=
  if Qltb start 0 || Qltb end_ 0 then (-1)%Q else (end_ - start)%Q.

Definition buildTimings (t : option ResourceTiming) : Timings :=
  match t with
  | None =>
      (* the fields not named in the literal keep Go's zero value *)
      {| Blocked := 0; DNS := 0; Connect := 0; Ssl := 0;
         Send := -1; Wait := -1; Receive := -1 |}
  | Some t =>
      let dns := phaseOrBlocked (DNSStart t) (DNSEnd t) in
      let connect := phaseOrBlocked (ConnectStart t) (ConnectEnd t) in
      let ssl := phaseOrBlocked (SslStart t) (SslEnd t) in
      let send := phaseOrBlocked (SendStart t) (SendEnd t) in
      let wait :=
        if Qgeb (SendEnd t) 0 && Qgeb (ReceiveHeadersEnd t) 0
        then (ReceiveHeadersEnd t - SendEnd t)%Q
        else (-1)%Q in
      {| Blocked := -1; DNS := dns; Connect := connect; Ssl := ssl;
         Send := send; Wait := wait; Receive := -1 |}
  end.

(** The loop of [totalTime]: [total] runs over the six listed fields. *)
Definition totalTime (t : Timings) : Q :=
  fold_left (fun total v => if Qltb 0 v then (total + v)%Q else total)
            [Blocked t; DNS t; Connect t; Send t; Wait t; Receive t] 0%Q.

(** [for k, v := range headers]: Go leaves the iteration order of a map
    unspecified; [range_of] is the order in which [map_to_list] lists the
    keys.  A key occurs once in a map, so the order matters to
    [redirectURL] only when both spellings are present. *)
Definition range_of (h : Headers) : list (string * any) := map_to_list h.

Fixpoint redirectURL_range (kvs : list (string * any)) : string :=
  match kvs with
  | [] => EmptyString
  | (k, v) :: rest =>
      if bool_decide (k = "Location"%string) || bool_decide (k = "location"%string)
      then Sprint v
      else redirectURL_range rest
  end.

Definition redirectURL (h : Headers) : string := redirectURL_range (range_of h).

(** The header names the test in [redirectURL] accepts. *)
Definition is_location (k : string) : bool :=
  bool_decide (k = "Location"%string) || bool_decide (k = "location"%string).

Definition headersToHAR (h : Headers) : list NameValuePair :=
  flat_map (fun kv : string * any =>
              match kv.2 with
              | AStrings arr => List.map (fun value => {| Name := kv.1; Value := value |}) arr
              | values => [{| Name := kv.1; Value := Sprint values |}]
              end)
           (range_of h).

Definition buildEntry (e : completedEntry) : Entry :=
  let req := request e in
  let resp := RecvResponse (response e) in
  let timings := buildTimings (Timing resp) in
  {| Pageref := pageRef req;
     StartedDateTime := wallTime req;
     EntryRequest :=
       {| ReqMethod := method req; ReqURL := url req;
          ReqHTTPVersion := Protocol resp;
          ReqHeaderPairs := headersToHAR (headers req);
          ReqHeadersSize := -1; ReqBodySize := -1 |};
     EntryResponse :=
       {| RespStatus := Status resp; RespStatusText := StatusText resp;
          RespHTTPVersion := Protocol resp;
          RespHeaderPairs := headersToHAR (RespHeaders resp);
          ContentMimeType := MimeType resp; ContentSize := 0;
          RedirectURL := redirectURL (RespHeaders resp);
          RespHeadersSize := -1; RespBodySize := -1 |};
     EntryTimings := timings;
     Time := totalTime timings |}.

Definition assembleHAR (pages : list Page) (entries : list completedEntry)
    (browserVersion : string) : HAR :=
  {| Version := "1.2";
     BrowserName := "Google Chrome"; BrowserVersion := browserVersion;
     CreatorName := "har-capture"; CreatorVersion := "0.1.0";
     Pages := pages;
     Entries := List.map buildEntry entries |}.

(** The reading of the specification of a phase with raw endpoints [start]
    and [end_]: absent (the sentinel) when an endpoint is negative, else
    the difference. *)
Definition phase_spec (start end_ phase : Q) : Prop :=
  ((start < 0 \/ end_ < 0)%Q -> phase = (-1)%Q)
  /\ ((0 <= start /\ 0 <= end_)%Q -> phase = (end_ - start)%Q).

(** The reading of the specification: the sum of the values of a list that
    are not negative. *)
Definition sum_nonneg (l : list Q) : Q :=
  fold_right (fun v acc => if Qle_bool 0 v then (v + acc)%Q else acc) 0%Q l.

(* ------------------------------------------------------------------- *)
(** *** capture.go: stages, options and the screenshot collector *)

Abbreviation LifecycleStage := string.

Definition StageDocumentLoad : LifecycleStage := "load".
Definition StageFirstContentfulPaint : LifecycleStage := "firstContentfulPaint".
Definition StageNetworkIdle : LifecycleStage := "networkIdle".

Definition lifecycleOrder : gmap string Z :=
  {[ StageDocumentLoad := 0%Z;
     StageFirstContentfulPaint := 1%Z;
     StageNetworkIdle := 2%Z ]}.

(** [lifecycleOrder[stage]]: a missing key reads as the zero value. *)
Definition order_of (stage : LifecycleStage) : Z :=
  default 0%Z (lifecycleOrder !! stage).

Record Screenshot : Type := mkScreenshot {
  Stage : LifecycleStage;
  CapturedAt : Z;
  PNG : list Byte.byte
}.

Record Options : Type := mkOptions {
  OptURL : string;
  NavigationTimeout : Z;
  TotalTimeout : Z;
  OptBrowserVersion : string;
  Screenshots : bool;
  ViewportWidth : Z;
  ViewportHeight : Z
}.

Record Result : Type := mkResult {
  ResHAR : HAR;
  TTFB : Z;
  ResScreenshots : list Screenshot;
  TimedOut : bool
}.

Definition Second : Z := 1000000000.
Definition Millisecond : Z := 1000000.

(** [sort.Slice(x, less)]: an insertion sort stands for the library
    routine.  The library promises a permutation of [x] that [less] orders
    and leaves the order of equal elements open; nothing below depends on
    that order. *)
Fixpoint insert_by {A : Type} (less : A -> A -> bool) (x : A) (l : list A) : list A :=
  match l with
  | [] => [x]
  | y :: l' => if less y x then y :: insert_by less x l' else x :: y :: l'
  end.

Definition sort_Slice {A : Type} (less : A -> A -> bool) (l : list A) : list A :=
  fold_right (insert_by less) [] l.

(** Comparison by a rank: the shape of the [less] that [wait] passes, and
    the order it stands for. *)
Definition less_by {A : Type} (key : A -> Z) (a b : A) : bool := (key a <? key b)%Z.
Definition le_by {A : Type} (key : A -> Z) (a b : A) : Prop := (key a <= key b)%Z.

(** A screenshot goroutine: its stage and what [chromedp.Run] with
    [CaptureScreenshot] gives it, [None] on an error, else the time of the
    append and the image. *)
Definition shot : Type := option (Z * list Byte.byte).

Record screenshotCollector : Type := mkScreenshotCollector {
  wg : list (LifecycleStage * shot);
  results : list Screenshot
}.

Definition screenshotCollector_capture (sc : screenshotCollector)
    (stage : LifecycleStage) (outcome : shot) : screenshotCollector :=
  {| wg := wg sc ++ [(stage, outcome)]; results := results sc |}.

(** The body of one goroutine, run to its end. *)
Definition finish (res : list Screenshot) (task : LifecycleStage * shot) : list Screenshot :=
  match task.2 with
  | None => res
  | Some (at_, buf) => res ++ [{| Stage := task.1; CapturedAt := at_; PNG := buf |}]
  end.

(** [sc.wg.Wait()]: the goroutines spawned so far run to their end;
    [finished] lists them, as indices into the spawn order, in the order in
    which they append under [mu]. *)
Definition join (sc : screenshotCollector) (finished : list nat) : screenshotCollector :=
  {| wg := [];
     results := fold_left (fun res i =>
                             match wg sc !! i with
                             | Some task => finish res task
                             | None => res
                             end) finished (results sc) |}.

Definition less_stage (a b : Screenshot) : bool :=
  (order_of (Stage a) <? order_of (Stage b))%Z.

Definition screenshotCollector_wait (sc : screenshotCollector) (finished : list nat)
  : list Screenshot :=
  sort_Slice less_stage (results (join sc finished)).

Definition isTimeoutError (err : error) : bool :=
  errors_Is err DeadlineExceeded || errors_Is err Canceled.

(** Truncation of a float64 to an integer, as the conversion to
    [time.Duration] does. *)
Definition Qtrunc (q : Q) : Z := Z.quot (Qnum q) (Zpos (Qden q)).

Fixpoint extractTTFB (entries : list completedEntry) : Z :=
  match entries with
  | [] => 0
  | e :: rest =>
      if negb (bool_decide (resourceType (request e) = ResourceTypeDocument))
      then extractTTFB rest
      else match Timing (RecvResponse (response e)) with
           | None => 0
           | Some t =>
               if Qltb (ReceiveHeadersStart t) 0 then 0%Z
               else Qtrunc (ReceiveHeadersStart t * inject_Z Millisecond)
           end
  end.

(* ------------------------------------------------------------------- *)
(** *** capture.go: the listener and [Capture] *)

(** The events [chromedp.ListenTarget] hands to the callback. *)
Inductive cdpEvent : Type :=
| RequestWillBeSent (ev : EventRequestWillBeSent)
| ResponseReceived (ev : EventResponseReceived)
| LifecycleEvent (name : string)
| OtherEvent.

(** The goroutine that runs the callback.  chromedp calls it synchronously:
    while it is blocked in [send] no later event is handled, and a panic in
    it ends the process. *)
Inductive listenerState : Type := Listening | BlockedInSend | Panicked.

(** The state one call of [Capture] owns, and the state of [totalCtx]. *)
Record session : Type := mkSession {
  store : requestStore;
  coll : collector;
  sc : screenshotCollector;
  ctxDone : bool;
  listener : listenerState
}.

Definition onRequest (ev : EventRequestWillBeSent) (st : requestStore) (c : collector)
  : requestStore * option collector :=
  let pageRef := "page_" +:+ SentRequestID ev in
  let st' := addRequest st
               {| requestID := SentRequestID ev;
                  method := Method (SentRequest ev);
                  url := URL (SentRequest ev);
                  headers := ReqHeaders (SentRequest ev);
                  wallTime := WallTime ev;
                  resourceType := SentType ev;
                  pageRef := pageRef |} in
  if bool_decide (SentType ev = ResourceTypeDocument)
  then (st', send c (EvPage {| PageID := pageRef;
                               PageStartedDateTime := WallTime ev;
                               PageTitle := URL (SentRequest ev) |}))
  else (st', Some c).

Definition onResponse (ev : EventResponseReceived) (st : requestStore) (c : collector)
  : requestStore * option collector :=
  match correlate st ev with
  | (None, st') => (st', Some c)
  | (Some entry, st') => (st', send c (EvEntry entry))
  end.

(** A handler that ends in a [send]: the store is already updated when the
    send blocks. *)
Definition sent (w : session) (r : requestStore * option collector) : session :=
  match r.2 with
  | Some c' => {| store := r.1; coll := c'; sc := sc w; ctxDone := ctxDone w;
                  listener := Listening |}
  | None => {| store := r.1; coll := coll w; sc := sc w; ctxDone := ctxDone w;
               listener := BlockedInSend |}
  end.

(** The callback registered with [ListenTarget].  [shots n] is the outcome
    of the screenshot goroutine spawned n-th. *)
Definition listen (screenshots : bool) (shots : nat -> shot) (w : session) (ev : cdpEvent)
  : session :=
  let spawn (stage : LifecycleStage) :=
    if screenshots
    then screenshotCollector_capture (sc w) stage (shots (length (wg (sc w))))
    else sc w in
  match ev with
  | RequestWillBeSent ev => sent w (onRequest ev (store w) (coll w))
  | ResponseReceived ev => sent w (onResponse ev (store w) (coll w))
  | LifecycleEvent name =>
      if bool_decide (name = StageDocumentLoad)
         || bool_decide (name = StageFirstContentfulPaint)
      then {| store := store w; coll := coll w; sc := spawn name;
              ctxDone := ctxDone w; listener := Listening |}
      else if bool_decide (name = StageNetworkIdle)
      then match markDone (coll w) with
           | Some c' => {| store := store w; coll := c'; sc := spawn StageNetworkIdle;
                           ctxDone := ctxDone w; listener := Listening |}
           | None => {| store := store w; coll := coll w; sc := spawn StageNetworkIdle;
                        ctxDone := ctxDone w; listener := Panicked |}
           end
      else w
  | OtherEvent => w
  end.

(** What happens around the session while [Capture] is in a call: the
    browser emits an event, or [totalCtx] is done (its deadline expires or
    the caller's context is cancelled). *)
Inductive action : Type :=
| Deliver (ev : cdpEvent)
| CtxDone.

Definition step (screenshots : bool) (shots : nat -> shot) (w : session) (a : action)
  : session :=
  match a with
  | CtxDone => {| store := store w; coll := coll w; sc := sc w; ctxDone := true;
                  listener := listener w |}
  | Deliver ev =>
      match listener w with
      | Listening => listen screenshots shots w ev
      | _ => w
      end
  end.

(** [coll.wait(totalCtx)] as [Capture] calls it: while the [select] blocks,
    the surroundings go on; when nothing is left to happen the deadline of
    [totalCtx] expires. *)
Fixpoint wait_blocking (screenshots : bool) (shots : nat -> shot) (pick : selected)
    (w : session) (trace : list action) : session * waited :=
  match select (coll w) (ctxDone w) pick with
  | Some sel =>
      let r := released (coll w) sel in
      ({| store := store w; coll := after r; sc := sc w; ctxDone := ctxDone w;
          listener := listener w |}, r)
  | None =>
      match trace with
      | a :: rest => wait_blocking screenshots shots pick (step screenshots shots w a) rest
      | [] =>
          let r := released (coll w) SelCtx in
          ({| store := store w; coll := after r; sc := sc w; ctxDone := true;
              listener := listener w |}, r)
      end
  end.

(** The option defaults of [Capture]. *)
Definition navTimeout_of (opts : Options) : Z :=
  if (NavigationTimeout opts =? 0)%Z then (10 * Second)%Z else NavigationTimeout opts.

Definition totalTimeout_of (opts : Options) : Z :=
  if (TotalTimeout opts =? 0)%Z then (30 * Second)%Z else TotalTimeout opts.

Definition browserVersion_of (opts : Options) : string :=
  if bool_decide (OptBrowserVersion opts = EmptyString) then "unknown"
  else OptBrowserVersion opts.

Definition viewport_of (opts : Options) : Z * Z :=
  if (ViewportWidth opts =? 0)%Z || (ViewportHeight opts =? 0)%Z
  then (1920%Z, 1080%Z)
  else (ViewportWidth opts, ViewportHeight opts).

(** What [Capture] asks of the browser: the deadlines of [totalCtx] and
    [navCtx], and the two actions of [chromedp.Run]. *)
Record navigation : Type := mkNavigation {
  totalDeadline : Z;
  navDeadline : Z;
  EmulateViewport : Z * Z;
  Navigate : string
}.

(** What the browser and the runtime do in answer. *)
Record behaviour : Type := mkBehaviour {
  (** events handled while [chromedp.Run(navCtx, ...)] is in progress *)
  navEvents : list action;
  (** the error [chromedp.Run(navCtx, ...)] returns, [None] for nil *)
  navResult : option error;
  (** what happens while [coll.wait] blocks *)
  waitEvents : list action;
  (** the outcome of the n-th screenshot goroutine *)
  shots : nat -> shot;
  (** the order in which the screenshot goroutines append *)
  finished : list nat;
  (** the case the runtime takes when both cases of the [select] are ready *)
  pick : selected
}.

Inductive outcome : Type :=
| Returned (r : Result)
| Failed (e : error)
| Crashed.

Definition newSession : session :=
  {| store := newRequestStore; coll := newCollector;
     sc := {| wg := []; results := [] |};
     ctxDone := false; listener := Listening |}.

Definition is_panicked (l : listenerState) : bool :=
  match l with Panicked => true | _ => false end.

(** The session when [chromedp.Run(navCtx, ...)] returns. *)
Definition navigated (b : behaviour) (opts : Options) : session :=
  fold_left (step (Screenshots opts) (shots b)) (navEvents b) newSession.

(** The session and the result of [coll.wait(totalCtx)]. *)
Definition awaited (b : behaviour) (opts : Options) : session * waited :=
  wait_blocking (Screenshots opts) (shots b) (pick b) (navigated b opts) (waitEvents b).

Definition Capture (browser : navigation -> behaviour) (opts : Options) : outcome :=
  if bool_decide (OptURL opts = EmptyString)
  then Failed (errorString "capture: URL must not be empty")
  else
    let navTimeout := navTimeout_of opts in
    let totalTimeout := totalTimeout_of opts in
    let browserVersion := browserVersion_of opts in
    let '(viewportWidth, viewportHeight) := viewport_of opts in
    let b := browser {| totalDeadline := totalTimeout; navDeadline := navTimeout;
                        EmulateViewport := (viewportWidth, viewportHeight);
                        Navigate := OptURL opts |} in
    let w1 := navigated b opts in
    if is_panicked (listener w1) then Crashed
    else
      let nav :=
        match navResult b with
        | Some err =>
            if negb (isTimeoutError err)
            then inr (Errorf_w "capture: navigation failed: " err)
            else inl true
        | None => inl false
        end in
      match nav with
      | inr e => Failed e
      | inl navTimedOut =>
          let '(w2, r) := awaited b opts in
          if is_panicked (listener w2) then Crashed
          else
            let collTimedOut := timedOut r in
            let timedOut := navTimedOut || collTimedOut in
            let sc3 :=
              if Screenshots opts && timedOut
              then screenshotCollector_capture (sc w2) StageNetworkIdle
                     (shots b (length (wg (sc w2))))
              else sc w2 in
            let screenshots := screenshotCollector_wait sc3 (finished b) in
            Returned {| ResHAR := assembleHAR (pages r) (entries r) browserVersion;
                        TTFB := extractTTFB (entries r);
                        ResScreenshots := screenshots;
                        TimedOut := timedOut |}
      end.

(** The invariant of a session: the channel is closed exactly when
    [onceCloser] says so, and the listener has not panicked. *)
Definition session_ok (w : session) : Prop :=
  onceDone (coll w) = doneClosed (coll w) /\ listener w <> Panicked.

(** What a call of [Capture] with [opts] asks of the browser. *)
Definition asked (opts : Options) : navigation :=
  {| totalDeadline := totalTimeout_of opts; navDeadline := navTimeout_of opts;
     EmulateViewport := viewport_of opts; Navigate := OptURL opts |}.

(** [opts] with the viewport replaced. *)
Definition with_viewport (opts : Options) (width height : Z) : Options :=
  {| OptURL := OptURL opts; NavigationTimeout := NavigationTimeout opts;
     TotalTimeout := TotalTimeout opts; OptBrowserVersion := OptBrowserVersion opts;
     Screenshots := Screenshots opts;
     ViewportWidth := width; ViewportHeight := height |}.



End Capture.

(* ===================================================================== *)
(** ** internal/storage: the upload capability *)
(* ===================================================================== *)

Module Storage.
Import Errors.

Record UploadRequest : Type := mkUploadRequest {
  ObjectName : string;
  Content : list Byte.byte;
  ContentType : string
}.

Record UploadResult : Type := mkUploadResult {
  UploadedName : string;
  SignedURL : string;
  ExpiresAt : Z
}.

(** An [Uploader]: what [Upload] answers to a request. *)
Abbreviation Uploader := (UploadRequest -> UploadResult + error).

End Storage.

(* ===================================================================== *)
(** ** internal/operation *)
(* ===================================================================== *)

Module Operation.
Import Errors Storage.

(* ------------------------------------------------------------------- *)
(** *** operation.go: the operation store *)

Inductive Status : Type :=
| StatusPending
| StatusRunning
| StatusComplete
| StatusFailed.

Record Artefact : Type := mkArtefact {
  ArtName : string;
  ArtSignedURL : string;
  ArtExpiresAt : Z
}.

Record Operation : Type := mkOperation {
  ID : string;
  OpStatus : Status;
  OpURL : string;
  CreatedAt : Z;
  UpdatedAt : Z;
  OpTTFB : Z;
  OpTimedOut : bool;
  Artefacts : list Artefact;
  OpError : string
}.

(** [MemoryStore]: the [ops] map.  The map holds pointers; every access goes
    through the methods below, and [Get] hands out a copy, so the map from
    identifiers to records is the whole state.  [mu] makes each method
    atomic. *)
Abbreviation MemoryStore := (gmap string Operation).

Definition NewMemoryStore : MemoryStore := ∅.

(** [strconv.Quote] as the quoting verb of [fmt] applies it, for
    identifiers in which nothing needs an escape. *)
Definition Quote (s : string) : string :=
  String (Ascii.ascii_of_nat 34) EmptyString +:+ s
    +:+ String (Ascii.ascii_of_nat 34) EmptyString.

Definition errNotFound (id : string) : error :=
  errorString ("operation " +:+ Quote id +:+ " not found").

(** [Create]: [id] is [uuid.New().String()], [now1] and [now2] the two
    readings of the clock. *)
Definition Create (s : MemoryStore) (url id : string) (now1 now2 : Z)
  : Operation * MemoryStore :=
  let op := {| ID := id; OpStatus := StatusPending; OpURL := url;
               CreatedAt := now1; UpdatedAt := now2;
               OpTTFB := 0; OpTimedOut := false; Artefacts := [];
               OpError := EmptyString |} in
  (op, <[ID op := op]> s).

Definition Get (s : MemoryStore) (id : string) : Operation + error :=
  match s !! id with
  | None => inr (errNotFound id)
  | Some op => inl op
  end.

(** [op.UpdatedAt = now]. *)
Definition touch (now : Z) (op : Operation) : Operation :=
  {| ID := ID op; OpStatus := OpStatus op; OpURL := OpURL op;
     CreatedAt := CreatedAt op; UpdatedAt := now;
     OpTTFB := OpTTFB op; OpTimedOut := OpTimedOut op;
     Artefacts := Artefacts op; OpError := OpError op |}.

(** [update]: [now] is [time.Now()] at the refresh of [UpdatedAt]. *)
Definition update (s : MemoryStore) (id : string) (fn : Operation -> Operation) (now : Z)
  : option error * MemoryStore :=
  match s !! id with
  | None => (Some (errNotFound id), s)
  | Some op => (None, <[id := touch now (fn op)]> s)
  end.

Definition set_running (op : Operation) : Operation :=
  {| ID := ID op; OpStatus := StatusRunning; OpURL := OpURL op;
     CreatedAt := CreatedAt op; UpdatedAt := UpdatedAt op;
     OpTTFB := OpTTFB op; OpTimedOut := OpTimedOut op;
     Artefacts := Artefacts op; OpError := OpError op |}.

Definition set_complete (ttfb : Z) (timedOut : bool) (artefacts : list Artefact)
    (op : Operation) : Operation :=
  {| ID := ID op; OpStatus := StatusComplete; OpURL := OpURL op;
     CreatedAt := CreatedAt op; UpdatedAt := UpdatedAt op;
     OpTTFB := ttfb; OpTimedOut := timedOut;
     Artefacts := artefacts; OpError := OpError op |}.

Definition set_failed (err : error) (op : Operation) : Operation :=
  {| ID := ID op; OpStatus := StatusFailed; OpURL := OpURL op;
     CreatedAt := CreatedAt op; UpdatedAt := UpdatedAt op;
     OpTTFB := OpTTFB op; OpTimedOut := OpTimedOut op;
     Artefacts := Artefacts op; OpError := Error err |}.

Definition MarkRunning (s : MemoryStore) (id : string) (now : Z) :=
  update s id set_running now.

Definition MarkComplete (s : MemoryStore) (id : string) (ttfb : Z) (timedOut : bool)
    (artefacts : list Artefact) (now : Z) :=
  update s id (set_complete ttfb timedOut artefacts) now.

Definition MarkFailed (s : MemoryStore) (id : string) (err : error) (now : Z) :=
  update s id (set_failed err) now.



Definition status_of (s : MemoryStore) (id : string) : option Status :=
  OpStatus <$> s !! id.

(* ------------------------------------------------------------------- *)
(** *** worker.go *)

Record WorkerOptions : Type := mkWorkerOptions {
  CaptureOptions : Capture.Options;
  OperationID : string;
  Uploader : Storage.Uploader
}.

(** What surrounds one run of the worker: the browser, [json.Marshal] on
    the archive, the UTC date of [objectPath], and the clock readings of the
    two store updates. *)
Record surroundings : Type := mkSurroundings {
  browser : Capture.navigation -> Capture.behaviour;
  marshal : Capture.HAR -> list Byte.byte + error;
  date : string;
  nowRunning : Z;
  nowDone : Z
}.

Definition objectPath (date operationID filename : string) : string :=
  "operations/" +:+ date +:+ "/" +:+ operationID +:+ "/" +:+ filename.

(** The verb for a decimal of at least two digits. *)
Definition fmt_02d (n : nat) : string :=
  if (n <? 10)%nat then "0" +:+ pretty n else pretty n.

(** The loop over [result.Screenshots]; [i] is the index of the head. *)
Fixpoint uploadScreenshots (date operationID : string) (uploader : Storage.Uploader)
    (i : nat) (shots : list Capture.Screenshot) (artefacts : list Artefact)
  : list Artefact + error :=
  match shots with
  | [] => inl artefacts
  | s :: rest =>
      let name := "screenshot_" +:+ fmt_02d (i + 1) +:+ "_" +:+ Capture.Stage s +:+ ".png" in
      match uploader {| ObjectName := objectPath date operationID name;
                        Content := Capture.PNG s;
                        ContentType := "image/png" |} with
      | inr err => inr (Errorf_w ("screenshot " +:+ pretty (i + 1)%nat +:+ ": ") err)
      | inl uploaded =>
          uploadScreenshots date operationID uploader (S i) rest
            (artefacts ++ [{| ArtName := "screenshot_" +:+ Capture.Stage s;
                              ArtSignedURL := SignedURL uploaded;
                              ArtExpiresAt := ExpiresAt uploaded |}])
      end
  end.

Definition uploadArtefacts (env : surroundings) (operationID : string)
    (result : Capture.Result) (uploader : Storage.Uploader) : list Artefact + error :=
  match marshal env (Capture.ResHAR result) with
  | inr err => inr (Errorf_w "failed to marshal HAR: " err)
  | inl harJSON =>
      match uploader {| ObjectName := objectPath (date env) operationID "capture.har";
                        Content := harJSON;
                        ContentType := "application/json" |} with
      | inr err => inr err
      | inl uploaded =>
          uploadScreenshots (date env) operationID uploader 0
            (Capture.ResScreenshots result)
            [{| ArtName := "har";
                ArtSignedURL := SignedURL uploaded;
                ArtExpiresAt := ExpiresAt uploaded |}]
      end
  end.

(** [Run].  The result is the history of the store: the state [Run] starts
    from, then the state after each of its store calls.  A capture that
    ends the process leaves the operation as the last call left it. *)
Definition Run (env : surroundings) (opts : WorkerOptions) (s : MemoryStore)
  : list MemoryStore :=
  match MarkRunning s (OperationID opts) (nowRunning env) with
  | (Some _, _) => [s]
  | (None, s1) =>
      match Capture.Capture (browser env) (CaptureOptions opts) with
      | Capture.Crashed => [s; s1]
      | Capture.Failed err =>
          [s; s1; (MarkFailed s1 (OperationID opts) (Errorf_w "capture: " err) (nowDone env)).2]
      | Capture.Returned result =>
          match uploadArtefacts env (OperationID opts) result (Uploader opts) with
          | inr err =>
              [s; s1; (MarkFailed s1 (OperationID opts) (Errorf_w "upload: " err) (nowDone env)).2]
          | inl artefacts =>
              [s; s1; (MarkComplete s1 (OperationID opts) (Capture.TTFB result)
                         (Capture.TimedOut result) artefacts (nowDone env)).2]
          end
      end
  end.



End Operation.

(* ===================================================================== *)
(** ** internal/server *)
(* ===================================================================== *)

Module Server.
Import Errors Storage Operation.

(** [createCaptureRequest], the decoded body of POST /captures. *)
Record createCaptureRequest : Type := mkCreateCaptureRequest {
  ReqURL : string;
  ReqNavigationTimeout : string;
  ReqTotalTimeout : string;
  ReqScreenshots : bool
}.

(** What a handler writes: [writeJSON] with a status code and one of the
    three bodies, the error object of [writeError], the
    [createCaptureResponse], or an operation. *)
Inductive body : Type :=
| ErrorBody (msg : string)
| CreatedBody (operation_id status : string)
| OperationBody (op : Operation).

Record reply : Type := mkReply {
  code : Z;
  payload : body
}.

Definition StatusOK : Z := 200.
Definition StatusAccepted : Z := 202.
Definition StatusBadRequest : Z := 400.
Definition StatusNotFound : Z := 404.

Definition writeError (status : Z) (msg : string) : reply :=
  {| code := status; payload := ErrorBody msg |}.

(** [string(status)]. *)
Definition Status_string (st : Status) : string :=
  match st with
  | StatusPending => "pending"
  | StatusRunning => "running"
  | StatusComplete => "complete"
  | StatusFailed => "failed"
  end.

(** [Server] without its store, which the handlers pass along. *)
Record Server : Type := mkServer {
  uploader : Storage.Uploader;
  defaultCaptureOptions : Capture.Options
}.

(** What one request brings with it: the outcome of decoding its body,
    [time.ParseDuration], and the identifier and clock readings [Create]
    draws. *)
Record request_env : Type := mkRequestEnv {
  Decode : createCaptureRequest + error;
  ParseDuration : string -> Z + error;
  newID : string;
  now1 : Z;
  now2 : Z
}.

Definition set_url_screenshots (opts : Capture.Options) (url : string) (screenshots : bool)
  : Capture.Options :=
  {| Capture.OptURL := url;
     Capture.NavigationTimeout := Capture.NavigationTimeout opts;
     Capture.TotalTimeout := Capture.TotalTimeout opts;
     Capture.OptBrowserVersion := Capture.OptBrowserVersion opts;
     Capture.Screenshots := screenshots;
     Capture.ViewportWidth := Capture.ViewportWidth opts;
     Capture.ViewportHeight := Capture.ViewportHeight opts |}.

Definition set_navigation_timeout (opts : Capture.Options) (d : Z) : Capture.Options :=
  {| Capture.OptURL := Capture.OptURL opts;
     Capture.NavigationTimeout := d;
     Capture.TotalTimeout := Capture.TotalTimeout opts;
     Capture.OptBrowserVersion := Capture.OptBrowserVersion opts;
     Capture.Screenshots := Capture.Screenshots opts;
     Capture.ViewportWidth := Capture.ViewportWidth opts;
     Capture.ViewportHeight := Capture.ViewportHeight opts |}.

Definition set_total_timeout (opts : Capture.Options) (d : Z) : Capture.Options :=
  {| Capture.OptURL := Capture.OptURL opts;
     Capture.NavigationTimeout := Capture.NavigationTimeout opts;
     Capture.TotalTimeout := d;
     Capture.OptBrowserVersion := Capture.OptBrowserVersion opts;
     Capture.Screenshots := Capture.Screenshots opts;
     Capture.ViewportWidth := Capture.ViewportWidth opts;
     Capture.ViewportHeight := Capture.ViewportHeight opts |}.

(** [handleCreateCapture].  The result is the reply, the store, and the
    worker the handler starts in a goroutine of its own, if it starts one.
    [Create] of the memory store returns no error, so that the handler's
    reply to such an error has no part here. *)
Definition handleCreateCapture (srv : Server) (env : request_env)
    (st : gmap string Operation)
  : reply * gmap string Operation * option WorkerOptions :=
  match Decode env with
  | inr err =>
      (writeError StatusBadRequest ("invalid request body: " +:+ Error err), st, None)
  | inl req =>
      if bool_decide (ReqURL req = EmptyString)
      then (writeError StatusBadRequest "url is required", st, None)
      else
        let opts := set_url_screenshots (defaultCaptureOptions srv)
                      (ReqURL req) (ReqScreenshots req) in
        let nav :=
          if bool_decide (ReqNavigationTimeout req <> EmptyString)
          then match ParseDuration env (ReqNavigationTimeout req) with
               | inr err =>
                   inr (writeError StatusBadRequest
                          ("invalid navigation_timeout "
                             +:+ Quote (ReqNavigationTimeout req) +:+ ": " +:+ Error err))
               | inl d => inl (set_navigation_timeout opts d)
               end
          else inl opts in
        match nav with
        | inr bad => (bad, st, None)
        | inl opts =>
            let total :=
              if bool_decide (ReqTotalTimeout req <> EmptyString)
              then match ParseDuration env (ReqTotalTimeout req) with
                   | inr err =>
                       inr (writeError StatusBadRequest
                              ("invalid total_timeout "
                                 +:+ Quote (ReqTotalTimeout req) +:+ ": " +:+ Error err))
                   | inl d => inl (set_total_timeout opts d)
                   end
              else inl opts in
            match total with
            | inr bad => (bad, st, None)
            | inl opts =>
                let '(op, st') := Create st (ReqURL req) (newID env) (now1 env) (now2 env) in
                ({| code := StatusAccepted;
                    payload := CreatedBody (ID op) (Status_string StatusPending) |},
                 st',
                 Some {| CaptureOptions := opts; OperationID := ID op;
                         Uploader := uploader srv |})
            end
        end
  end.

(** The requests [handleCreateCapture] turns down: the body does not
    decode, the URL is missing, or a timeout that is given does not
    parse. *)
Definition turned_down (env : request_env) : Prop :=
  match Decode env with
  | inr _ => True
  | inl req =>
      ReqURL req = EmptyString
      \/ (ReqNavigationTimeout req <> EmptyString
          /\ exists err, ParseDuration env (ReqNavigationTimeout req) = inr err)
      \/ (ReqTotalTimeout req <> EmptyString
          /\ exists err, ParseDuration env (ReqTotalTimeout req) = inr err)
  end.

(** [handleGetCapture]; [id] is [r.PathValue("id")]. *)
Definition handleGetCapture (id : string) (st : gmap string Operation) : reply :=
  if bool_decide (id = EmptyString)
  then writeError StatusBadRequest "operation id is required"
  else match Get st id with
       | inr _ => writeError StatusNotFound ("operation " +:+ Quote id +:+ " not found")
       | inl op => {| code := StatusOK; payload := OperationBody op |}
       end.

End Server.

(* ===================================================================== *)
(** ** Runs of calls and invariants, for the properties below *)
(* ===================================================================== *)

Module Runs.
Import Network Errors Capture Operation.

(** [send] of a list of events, one after the other; [None] as soon as one
    blocks. *)
Fixpoint send_all (c : collector) (vs : list event) : option collector :=
  match vs with
  | [] => Some c
  | v :: rest => send c v ≫= fun c' => send_all c' rest
  end.

(** The stages [Capture] takes screenshots at. *)
Definition known_stage (stage : LifecycleStage) : Prop :=
  stage = StageDocumentLoad \/ stage = StageFirstContentfulPaint
  \/ stage = StageNetworkIdle.

(** The screenshot collector of a session: nothing appended before the
    join, and only known stages spawned. *)
Definition shots_ok (sc : screenshotCollector) : Prop :=
  results sc = [] /\ Forall (fun task => known_stage task.1) (wg sc).

(** Every pending request is filed under its own identifier. *)
Definition filed (s : gmap string pendingRequest) : Prop :=
  forall k r, s !! k = Some r -> requestID r = k.

(** The pending request and the page that [onRequest] makes of a request
    event. *)
Definition pending_of (ev : EventRequestWillBeSent) : pendingRequest :=
  {| requestID := SentRequestID ev;
     method := Method (SentRequest ev);
     url := URL (SentRequest ev);
     headers := ReqHeaders (SentRequest ev);
     wallTime := WallTime ev;
     resourceType := SentType ev;
     pageRef := "page_" +:+ SentRequestID ev |}.

Definition page_of (ev : EventRequestWillBeSent) : Page :=
  {| PageID := "page_" +:+ SentRequestID ev;
     PageStartedDateTime := WallTime ev;
     PageTitle := URL (SentRequest ev) |}.

(** The calls on the correlator that a trace stands for, and the pages of
    its document requests. *)
Definition calls_of (trace : list action) : list call :=
  omap (fun a => match a with
                 | Deliver (RequestWillBeSent ev) => Some (CallAddRequest (pending_of ev))
                 | Deliver (ResponseReceived ev) => Some (CallCorrelate ev)
                 | _ => None
                 end) trace.

Definition pages_in (trace : list action) : list Page :=
  omap (fun a => match a with
                 | Deliver (RequestWillBeSent ev) =>
                     if bool_decide (SentType ev = ResourceTypeDocument)
                     then Some (page_of ev) else None
                 | _ => None
                 end) trace.

(** A call on the operation store, with what it draws from outside. *)
Inductive store_call : Type :=
| CallCreate (url id : string) (now1 now2 : Z)
| CallMarkRunning (id : string) (now : Z)
| CallMarkComplete (id : string) (ttfb : Z) (timedOut : bool)
    (artefacts : list Artefact) (now : Z)
| CallMarkFailed (id : string) (err : error) (now : Z).

Definition store_step (s : gmap string Operation.Operation) (c : store_call)
  : gmap string Operation.Operation :=
  match c with
  | CallCreate url id now1 now2 => (Create s url id now1 now2).2
  | CallMarkRunning id now => (MarkRunning s id now).2
  | CallMarkComplete id ttfb timedOut artefacts now =>
      (MarkComplete s id ttfb timedOut artefacts now).2
  | CallMarkFailed id err now => (MarkFailed s id err now).2
  end.

Definition store_run (cs : list store_call) (s : gmap string Operation.Operation)
  : gmap string Operation.Operation :=
  fold_left store_step cs s.

(** The last state of a history of the store. *)
Definition final (history : list (gmap string Operation.Operation))
  : gmap string Operation.Operation :=
  List.last history ∅.

End Runs.

(* ===================================================================== *)
(** ** Sample data *)
(* ===================================================================== *)

Module Samples.
Import Network Errors Capture.

Definition sample_request (id : string) (type : string) : EventRequestWillBeSent :=
  {| SentRequestID := id;
     SentRequest := {| Method := "GET"; URL := "https://example.com/";
                       ReqHeaders := ∅ |};
     WallTime := 1700000000;
     SentType := type |}.

Definition sample_pending (id : string) : pendingRequest :=
  {| requestID := id; method := "GET"; url := "https://example.com/";
     headers := ∅; wallTime := 1700000000;
     resourceType := ResourceTypeDocument; pageRef := "page_" +:+ id |}.

Definition sample_timing : ResourceTiming :=
  {| RequestTime := 0;
     DNSStart := 0; DNSEnd := 5;
     ConnectStart := 5; ConnectEnd := 40;
     SslStart := 10; SslEnd := 30;
     SendStart := 40; SendEnd := 41;
     ReceiveHeadersStart := 50; ReceiveHeadersEnd := 91 |}.

Definition sample_response (id : string) (h : Headers) : EventResponseReceived :=
  {| RecvRequestID := id;
     RecvResponse := {| Status := 200; StatusText := "OK"; RespHeaders := h;
                        MimeType := "text/html"; Protocol := "http/1.1";
                        Timing := Some sample_timing |} |}.

Definition idle : action := Deliver (LifecycleEvent StageNetworkIdle).

Definition sample_options : Options :=
  {| OptURL := "https://example.com/"; NavigationTimeout := 0; TotalTimeout := 0;
     OptBrowserVersion := EmptyString; Screenshots := false;
     ViewportWidth := 0; ViewportHeight := 0 |}.

(** A page that loads within the navigation deadline and then goes idle. *)
Definition quiet_page : behaviour :=
  {| navEvents := [Deliver (RequestWillBeSent (sample_request "7" ResourceTypeDocument));
                   Deliver (ResponseReceived (sample_response "7" ∅))];
     navResult := None;
     waitEvents := [idle];
     shots := fun _ => None;
     finished := [];
     pick := SelDone |}.



Definition sample_uploader : Storage.Uploader :=
  fun req => inl {| Storage.UploadedName := Storage.ObjectName req;
                    Storage.SignedURL := "https://storage.example/" +:+ Storage.ObjectName req;
                    Storage.ExpiresAt := 1700003600 |}.

Definition sample_surroundings : Operation.surroundings :=
  {| Operation.browser := fun _ => quiet_page;
     Operation.marshal := fun _ => inl [];
     Operation.date := "2023/11/14";
     Operation.nowRunning := 1700000001;
     Operation.nowDone := 1700000002 |}.

Definition sample_worker : Operation.WorkerOptions :=
  {| Operation.CaptureOptions := sample_options;
     Operation.OperationID := "op-1";
     Operation.Uploader := sample_uploader |}.

(** The store after [Create] of the operation [op-1]. *)
Definition sample_store : gmap string Operation.Operation :=
  (Operation.Create Operation.NewMemoryStore "https://example.com/" "op-1"
     1700000000 1700000000).2.

Definition screenshot_options : Options :=
  {| OptURL := "https://example.com/"; NavigationTimeout := 0; TotalTimeout := 0;
     OptBrowserVersion := EmptyString; Screenshots := true;
     ViewportWidth := 0; ViewportHeight := 0 |}.

(** A page that paints, loads and goes idle, with screenshot goroutines
    that finish out of order. *)
Definition lively_page : behaviour :=
  {| navEvents := [Deliver (RequestWillBeSent (sample_request "7" ResourceTypeDocument));
                   Deliver (ResponseReceived (sample_response "7" ∅));
                   Deliver (LifecycleEvent StageFirstContentfulPaint);
                   Deliver (LifecycleEvent StageDocumentLoad)];
     navResult := None;
     waitEvents := [idle];
     shots := fun n => Some (1700000000 + Z.of_nat n, [])%Z;
     finished := [2; 0; 1];
     pick := SelDone |}.


Definition sample_server : Server.Server :=
  {| Server.uploader := sample_uploader;
     Server.defaultCaptureOptions :=
       {| OptURL := EmptyString; NavigationTimeout := 10 * Second;
          TotalTimeout := 30 * Second; OptBrowserVersion := EmptyString;
          Screenshots := false; ViewportWidth := 0; ViewportHeight := 0 |} |}.

(** A duration parser that knows one duration. *)
Definition sample_parser (text : string) : Z + error :=
  if bool_decide (text = "5s"%string) then inl (5 * Second)%Z
  else inr (errorString "time: invalid duration").

Definition sample_post (url nav : string) : Server.request_env :=
  {| Server.Decode := inl {| Server.ReqURL := url;
                             Server.ReqNavigationTimeout := nav;
                             Server.ReqTotalTimeout := EmptyString;
                             Server.ReqScreenshots := true |};
     Server.ParseDuration := sample_parser;
     Server.newID := "op-2";
     Server.now1 := 1700000100;
     Server.now2 := 1700000100 |}.

End Samples.

(* ===================================================================== *)
(** ** Properties of internal/capture *)
(* ===================================================================== *)

Module CaptureProps.
Import Network Errors Capture Samples.

(* ------------------------------------------------------------------- *)
(** *** The correlator *)

Lemma correlate_pending (s : gmap string pendingRequest) ev req :
  s !! RecvRequestID ev = Some req ->
  correlate s ev
  = (Some {| request := req; response := ev |}, delete (RecvRequestID ev) s).
Proof. intros H. unfold correlate. by rewrite H. Qed.

Lemma correlate_absent (s : gmap string pendingRequest) ev :
  s !! RecvRequestID ev = None -> correlate s ev = (None, s).
Proof. intros H. unfold correlate. by rewrite H. Qed.

Lemma correlate_consumes (s : gmap string pendingRequest) ev :
  (correlate s ev).2 !! RecvRequestID ev = None.
Proof.
  unfold correlate. destruct (s !! RecvRequestID ev) eqn:E; simpl.
  - apply lookup_delete_eq.
  - exact E.
Qed.

Lemma correlate_frame (s : gmap string pendingRequest) ev id :
  id <> RecvRequestID ev -> (correlate s ev).2 !! id = s !! id.
Proof.
  intros Hne. unfold correlate. destruct (s !! RecvRequestID ev); simpl; [|done].
  by rewrite lookup_delete_ne.
Qed.

Lemma correlate_entry (s : gmap string pendingRequest) ev e :
  (correlate s ev).1 = Some e -> response e = ev.
Proof.
  unfold correlate. destruct (s !! RecvRequestID ev); simpl; [|done].
  by intros [= <-].
Qed.

(** Without a registration of [id], an identifier that is not pending
    stays so. *)
Lemma run_calls_stays_absent id cs :
  forallb (fun c => negb (registers id c)) cs = true ->
  forall s : gmap string pendingRequest,
    s !! id = None -> (run_calls cs s).1 !! id = None.
Proof.
  induction cs as [|c cs IH]; intros Hno s Hs; [done|].
  simpl in Hno. apply andb_true_iff in Hno as [Hc Hcs].
  destruct c as [r|ev]; simpl.
  - apply IH; [done|]. unfold addRequest.
    simpl in Hc. apply negb_true_iff, bool_decide_eq_false in Hc.
    by rewrite lookup_insert_ne.
  - destruct (correlate s ev) as [o s'] eqn:E.
    destruct (run_calls cs s') as [s'' out] eqn:E'. simpl.
    change s'' with (s'', out).1. rewrite <- E'. apply IH; [done|].
    change s' with (o, s').2. rewrite <- E.
    destruct (decide (id = RecvRequestID ev)) as [->|Hne].
    + apply correlate_consumes.
    + by rewrite correlate_frame.
Qed.

(** Pairings of [id] are paid for by registrations of [id]. *)
Lemma run_calls_count id cs :
  forall s : gmap string pendingRequest,
    length (List.filter (pairs_id id) (run_calls cs s).2)
      + pending_count id (run_calls cs s).1
    <= length (List.filter (registers id) cs) + pending_count id s.
Proof.
  induction cs as [|c cs IH]; intros s; [simpl; lia|].
  destruct c as [r|ev]; simpl run_calls.
  - specialize (IH (addRequest s r)). simpl List.filter.
    assert (pending_count id (addRequest s r)
            <= (if bool_decide (requestID r = id) then 1 else 0) + pending_count id s).
    { unfold pending_count, addRequest. case_bool_decide as Hid.
      - subst id. rewrite lookup_insert_eq. lia.
      - rewrite lookup_insert_ne; [lia|done]. }
    destruct (bool_decide (requestID r = id)); simpl length; lia.
  - destruct (correlate s ev) as [o s'] eqn:E.
    specialize (IH s'). destruct (run_calls cs s') as [s'' out] eqn:E'.
    simpl in *.
    assert (Hs' : s' = (correlate s ev).2) by by rewrite E.
    assert (Ho : o = (correlate s ev).1) by by rewrite E.
    destruct o as [e|].
    + simpl List.filter.
      assert (He : response e = ev) by (apply (correlate_entry s); by rewrite <- Ho).
      unfold pairs_id at 1. rewrite He.
      assert (pending_count id s' + (if bool_decide (RecvRequestID ev = id) then 1 else 0)
              <= pending_count id s).
      { unfold pending_count. case_bool_decide as Hid.
        - subst id. rewrite Hs', correlate_consumes.
          unfold correlate in Ho. destruct (s !! RecvRequestID ev); [lia|done].
        - rewrite Hs', correlate_frame; [lia|done]. }
      destruct (bool_decide (RecvRequestID ev = id)); simpl length; lia.
    + unfold correlate in E. destruct (s !! RecvRequestID ev); [done|].
      injection E as <-. lia.
Qed.

(** C3.  [correlate] pairs a response exactly when its identifier is
    pending, and then removes the pending request; for an identifier that is
    not pending (never seen, or consumed) it reports no match and returns
    the store as it was; the other identifiers keep their state in every
    case.  Hence, along every sequence of calls, once a response for [id]
    has been handled, later responses for [id] find no match until [id] is
    registered again, and the responses paired for [id] never outnumber the
    registrations of [id] (plus one if [id] was pending at the start). *)
Theorem correlate_at_most_once (s : gmap string pendingRequest)
    (ev : EventResponseReceived) :
  let id := RecvRequestID ev in
  (forall req, s !! id = Some req ->
     correlate s ev = (Some {| request := req; response := ev |}, delete id s))
  /\ (s !! id = None -> correlate s ev = (None, s))
  /\ (forall id', id' <> id -> (correlate s ev).2 !! id' = s !! id')
  /\ (forall mid ev',
        RecvRequestID ev' = id ->
        forallb (fun c => negb (registers id c)) mid = true ->
        let s' := (run_calls mid (correlate s ev).2).1 in
        correlate s' ev' = (None, s'))
  /\ (forall cs,
        length (List.filter (pairs_id id) (run_calls cs s).2)
        <= length (List.filter (registers id) cs) + pending_count id s).
Proof.
  intros id. repeat split.
  - intros req. apply correlate_pending.
  - apply correlate_absent.
  - intros id'. apply correlate_frame.
  - intros mid ev' Hid Hno s'. apply correlate_absent. rewrite Hid.
    apply run_calls_stays_absent; [done|]. apply correlate_consumes.
  - intros cs. pose proof (run_calls_count id cs s). lia.
Qed.

Lemma correlate_at_most_once_witness :
  let s := addRequest newRequestStore (sample_pending "7") in
  let ev := sample_response "7" ∅ in
  correlate s ev = (Some {| request := sample_pending "7"; response := ev |}, delete "7" s)
  /\ correlate newRequestStore ev = (None, newRequestStore)
  /\ (correlate s ev).2 !! "8" = s !! "8"
  /\ correlate (run_calls [CallAddRequest (sample_pending "8")] (correlate s ev).2).1 ev
     = (None, (run_calls [CallAddRequest (sample_pending "8")] (correlate s ev).2).1).
Proof.
  intros s ev.
  destruct (correlate_at_most_once s ev) as (Hp & _ & Hf & Hl & _).
  destruct (correlate_at_most_once newRequestStore ev) as (_ & Ha & _).
  split; [apply Hp; reflexivity|].
  split; [apply Ha; reflexivity|].
  split; [apply Hf; discriminate|].
  apply (Hl [CallAddRequest (sample_pending "8")] ev); reflexivity.
Defined.

(* ------------------------------------------------------------------- *)
(** *** The event collector *)

Lemma drain_spec buf : forall acc,
  drain buf acc = (acc.1 ++ pages_of buf, acc.2 ++ entries_of buf).
Proof.
  induction buf as [|v buf IH]; intros [ps es]; simpl.
  - by rewrite !app_nil_r.
  - rewrite IH. destruct v; simpl; by rewrite <- app_assoc.
Qed.

Lemma buffered_split buf :
  length (pages_of buf) + length (entries_of buf) = length buf.
Proof.
  induction buf as [|[p|e] buf IH]; simpl; [done| |]; unfold pages_of, entries_of in *;
    simpl; lia.
Qed.

Lemma released_events c sel :
  pages (released c sel) = pages_of (resultCh c)
  /\ entries (released c sel) = entries_of (resultCh c)
  /\ resultCh (after (released c sel)) = [].
Proof. unfold released. rewrite drain_spec. done. Qed.

(** Only [onceCloser.close] closes the channel, and it records that it did. *)
Lemma reachable_once c : reachable c -> onceDone c = doneClosed c.
Proof.
  induction 1 as [|c v c' _ IH Hs|c c' _ IH Hm|c expired pick w _ IH Hw]; [done| | |].
  - unfold send in Hs. destruct (_ <? _)%nat; [|done]. by injection Hs as <-.
  - unfold markDone, onceCloser_close, close_chan in Hm. rewrite IH in Hm.
    destruct (doneClosed c) eqn:E; simpl in Hm; injection Hm as <-; simpl; congruence.
  - unfold wait in Hw. destruct (select c expired pick); [|done].
    by injection Hw as <-.
Qed.

Lemma markDone_again c : onceDone c = true -> forall n, markDone_times n c = Some c.
Proof.
  intros H n. induction n as [|n IH]; [done|].
  simpl. unfold markDone at 1. unfold onceCloser_close. rewrite H. simpl. exact IH.
Qed.

(** C4.  In every state of a collector: with the completion signal raised
    and the deadline not expired [wait] returns [timedOut = false]; with the
    deadline expired and no signal it returns [timedOut = true]; whenever it
    returns, it returns every buffered page and entry, oldest first, and
    leaves the buffer empty.  [markDone] returns normally, closes the
    channel and keeps the buffer, and any number of further calls return
    normally and change nothing. *)
Theorem wait_and_markDone (c : collector) (pick : selected) :
  reachable c ->
  (doneClosed c = true ->
     exists w, wait c false pick = Some w /\ timedOut w = false)
  /\ (doneClosed c = false ->
       exists w, wait c true pick = Some w /\ timedOut w = true)
  /\ (forall expired w,
        wait c expired pick = Some w ->
        pages w = pages_of (resultCh c)
        /\ entries w = entries_of (resultCh c)
        /\ length (pages w) + length (entries w) = length (resultCh c)
        /\ resultCh (after w) = [])
  /\ (exists c1,
        markDone c = Some c1
        /\ doneClosed c1 = true
        /\ resultCh c1 = resultCh c
        /\ forall n, markDone_times n c1 = Some c1).
Proof.
  intros Hr. split; [|split; [|split]].
  - intros Hd. unfold wait, select. rewrite Hd. simpl. eauto.
  - intros Hd. unfold wait, select. rewrite Hd. simpl. eauto.
  - intros expired w Hw. unfold wait in Hw.
    destruct (select c expired pick) as [sel|]; [|done].
    injection Hw as <-.
    destruct (released_events c sel) as (Hp & He & Hb).
    rewrite Hp, He. split; [done|]. split; [done|]. split; [apply buffered_split|exact Hb].
  - pose proof (reachable_once c Hr) as Hinv.
    unfold markDone, onceCloser_close, close_chan. rewrite Hinv.
    destruct (doneClosed c) eqn:E; simpl.
    + exists c. repeat split; [done|].
      apply markDone_again. by rewrite Hinv.
    + eexists. repeat split. by apply markDone_again.
Qed.

Lemma wait_and_markDone_witness :
  let c := {| resultCh := [EvPage {| PageID := "page_7"; PageStartedDateTime := 0;
                                     PageTitle := "https://example.com/" |}];
              doneClosed := false; onceDone := false |} in
  (exists w, wait c true SelDone = Some w /\ timedOut w = true)
  /\ exists c1, markDone c = Some c1 /\ doneClosed c1 = true
               /\ resultCh c1 = resultCh c
               /\ forall n, markDone_times n c1 = Some c1.
Proof.
  intros c.
  assert (Hr : reachable c).
  { eapply (reach_send newCollector); [apply reach_new|reflexivity]. }
  destruct (wait_and_markDone c SelDone Hr) as (_ & Hw & _ & Hm).
  split; [apply Hw; reflexivity|exact Hm].
Defined.

(* ------------------------------------------------------------------- *)
(** *** Timing reconstruction *)

Lemma Qltb_lt a b : Qltb a b = true <-> (a < b)%Q.
Proof.
  unfold Qltb. rewrite negb_true_iff. split.
  - intros Hb. apply Qnot_le_lt. intros Hle.
    apply Qle_bool_iff in Hle. congruence.
  - intros Hlt. destruct (Qle_bool b a) eqn:E; [|done].
    apply Qle_bool_iff in E. exfalso. exact (Qlt_not_le _ _ Hlt E).
Qed.

Lemma Qltb_ge a b : Qltb a b = false <-> (b <= a)%Q.
Proof.
  unfold Qltb. rewrite negb_false_iff. apply Qle_bool_iff.
Qed.

Lemma phaseOrBlocked_spec start end_ :
  phase_spec start end_ (phaseOrBlocked start end_).
Proof.
  unfold phase_spec, phaseOrBlocked. split.
  - intros [H|H]; apply Qltb_lt in H; rewrite H; [done|].
    by rewrite orb_true_r.
  - intros [Hs He]. apply Qltb_ge in Hs, He. by rewrite Hs, He.
Qed.

Lemma wait_phase_spec t :
  phase_spec (SendEnd t) (ReceiveHeadersEnd t) (Wait (buildTimings (Some t))).
Proof.
  unfold phase_spec. simpl. unfold Qgeb. split.
  - intros [H|H]; apply Qltb_lt in H; unfold Qltb in H;
      apply negb_true_iff in H; rewrite H; [done|].
    by rewrite andb_false_r.
  - intros [Hs He]. apply Qle_bool_iff in Hs, He. by rewrite Hs, He.
Qed.

(** The loop of [totalTime] from any running total. *)
Lemma total_loop l : forall total,
  (fold_left (fun total v => if Qltb 0 v then total + v else total) l total
   == total + sum_nonneg l)%Q.
Proof.
  induction l as [|v l IH]; intros total; simpl.
  - lra.
  - rewrite IH. destruct (Qltb 0 v) eqn:Hlt.
    + apply Qltb_lt in Hlt.
      assert (Hle : Qle_bool 0 v = true) by (apply Qle_bool_iff; lra).
      rewrite Hle. lra.
    + apply Qltb_ge in Hlt. destruct (Qle_bool 0 v) eqn:Hle; [|lra].
      apply Qle_bool_iff in Hle. lra.
Qed.

Lemma totalTime_sum tm :
  (totalTime tm
   == sum_nonneg [Blocked tm; DNS tm; Connect tm; Send tm; Wait tm; Receive tm])%Q.
Proof. unfold totalTime. rewrite total_loop. lra. Qed.

(** C2, as the code has it.  For an entry whose response carries timing,
    each of the DNS, connect, SSL and send phases, and the wait phase taken
    from [SendEnd] to [ReceiveHeadersEnd], is the sentinel when a raw
    endpoint is negative and the difference of the endpoints otherwise.
    The total time of every entry is the sum of the values that are not
    negative among blocked, DNS, connect, send, wait and receive: the SSL
    phase is not a summand.  With timing present, blocked and receive are
    the sentinel, so the total is the sum over DNS, connect, send and
    wait. *)
Theorem timings_and_total (e : completedEntry) :
  let tm := EntryTimings (buildEntry e) in
  (forall t, Timing (RecvResponse (response e)) = Some t ->
     phase_spec (DNSStart t) (DNSEnd t) (DNS tm)
     /\ phase_spec (ConnectStart t) (ConnectEnd t) (Connect tm)
     /\ phase_spec (SslStart t) (SslEnd t) (Ssl tm)
     /\ phase_spec (SendStart t) (SendEnd t) (Send tm)
     /\ phase_spec (SendEnd t) (ReceiveHeadersEnd t) (Wait tm)
     /\ (Time (buildEntry e) == sum_nonneg [DNS tm; Connect tm; Send tm; Wait tm])%Q)
  /\ (Time (buildEntry e)
      == sum_nonneg [Blocked tm; DNS tm; Connect tm; Send tm; Wait tm; Receive tm])%Q.
Proof.
  intros tm. split.
  - intros t Ht. subst tm. unfold buildEntry. cbn [EntryTimings Time]. rewrite Ht.
    repeat split; try apply phaseOrBlocked_spec; try apply (wait_phase_spec t).
    rewrite totalTime_sum. reflexivity.
  - subst tm. unfold buildEntry. cbn [EntryTimings Time]. apply totalTime_sum.
Qed.

Lemma timings_and_total_witness :
  let e := {| request := sample_pending "7"; response := sample_response "7" ∅ |} in
  let tm := EntryTimings (buildEntry e) in
  phase_spec 10 30 (Ssl tm)
  /\ (Time (buildEntry e) == sum_nonneg [DNS tm; Connect tm; Send tm; Wait tm])%Q.
Proof.
  intros e tm.
  destruct (timings_and_total e) as [H _].
  destruct (H sample_timing eq_refl) as (_ & _ & Hssl & _ & _ & Htot).
  split; [exact Hssl|exact Htot].
Defined.

(** C2, as the specification words it, fails: with an SSL phase of 20 ms
    inside a connect phase of 35 ms the total is 91 ms, not the 111 ms
    that the sum over DNS, connect, SSL, send and wait gives. *)
Lemma total_time_leaves_ssl_out :
  let e := {| request := sample_pending "7"; response := sample_response "7" ∅ |} in
  let tm := EntryTimings (buildEntry e) in
  (Time (buildEntry e) == 91)%Q
  /\ (sum_nonneg [DNS tm; Connect tm; Ssl tm; Send tm; Wait tm] == 111)%Q
  /\ ~ (Time (buildEntry e)
         == sum_nonneg [DNS tm; Connect tm; Ssl tm; Send tm; Wait tm])%Q.
Proof.
  intros e tm. repeat split; try (vm_compute; reflexivity).
  vm_compute. discriminate.
Qed.

(* ------------------------------------------------------------------- *)
(** *** The redirect target *)

Lemma redirectURL_range_none (kvs : list (string * any)) :
  Forall (fun kv => is_location kv.1 = false) kvs ->
  redirectURL_range kvs = EmptyString.
Proof.
  induction 1 as [|[k v] kvs Hk _ IH]; [done|].
  simpl in *. unfold is_location in Hk. by rewrite Hk.
Qed.

Lemma redirectURL_range_one (kvs : list (string * any)) k v :
  is_location k = true ->
  (k, v) ∈ kvs ->
  (forall k' v', (k', v') ∈ kvs -> is_location k' = true -> k' = k) ->
  NoDup kvs.*1 ->
  redirectURL_range kvs = Sprint v.
Proof.
  intros Hk. induction kvs as [|[k0 v0] kvs IH]; intros Hin Hone Hnd.
  - by apply elem_of_nil in Hin.
  - simpl. fold (is_location k0). destruct (is_location k0) eqn:E.
    + assert (k0 = k) as -> by (apply (Hone k0 v0); [left|done]).
      apply elem_of_cons in Hin as [[= ->]|Hin]; [done|].
      apply NoDup_cons in Hnd as [Hnot _]. exfalso. apply Hnot.
      apply list_elem_of_fmap. by exists (k, v).
    + apply elem_of_cons in Hin as [[= -> ->]|Hin]; [congruence|].
      apply NoDup_cons in Hnd as [_ Hnd]. apply IH; [done| |done].
      intros k' v' Hin'. apply (Hone k' v'). by right.
Qed.

(** With exactly one of the two spellings the code knows, the target is the
    value of that header. *)
Lemma redirectURL_known_spelling (h : gmap string any) k v :
  is_location k = true ->
  h !! k = Some v ->
  (forall k', is_location k' = true -> k' <> k -> h !! k' = None) ->
  redirectURL h = Sprint v.
Proof.
  intros Hk Hv Hother. unfold redirectURL, range_of.
  apply (redirectURL_range_one _ k v); [done| | |].
  - by apply elem_of_map_to_list.
  - intros k' v' Hin Hk'. apply elem_of_map_to_list in Hin.
    destruct (decide (k' = k)) as [|Hne]; [done|].
    rewrite (Hother k' Hk' Hne) in Hin. done.
  - apply NoDup_fst_map_to_list.
Qed.

(** C8, where the code falls short of it.  [redirectURL] compares the header
    name with the two spellings [Location] and [location] only: a response
    that has neither of them gets the empty redirect target, whatever other
    casing of the name it carries. *)
Theorem redirectURL_two_spellings_only (h : gmap string any) :
  h !! "Location"%string = None ->
  h !! "location"%string = None ->
  redirectURL h = EmptyString.
Proof.
  intros H1 H2. unfold redirectURL, range_of. apply redirectURL_range_none.
  apply Forall_forall. intros [k v] Hin. apply elem_of_map_to_list in Hin.
  simpl. apply orb_false_iff.
  split; apply bool_decide_eq_false; intros ->; congruence.
Qed.

Lemma redirectURL_upper_case_missed :
  let h : gmap string any := {[ "LOCATION"%string := AString "https://example.com/next" ]} in
  h !! "LOCATION"%string = Some (AString "https://example.com/next")
  /\ redirectURL h = EmptyString
  /\ RedirectURL (EntryResponse (buildEntry
        {| request := sample_pending "7"; response := sample_response "7" h |}))
     = EmptyString.
Proof.
  intros h. split; [reflexivity|]. split.
  - apply (redirectURL_two_spellings_only h); reflexivity.
  - apply (redirectURL_two_spellings_only h); reflexivity.
Defined.

(* ------------------------------------------------------------------- *)
(** *** The screenshot collector *)

Section SortByKey.
Context {A : Type} (key : A -> Z).


Lemma insert_by_perm x l : Permutation (insert_by (less_by key) x l) (x :: l).
Proof.
  induction l as [|y l IH]; simpl; [done|].
  unfold less_by at 1. destruct (key y <? key x)%Z; [|done].
  rewrite IH. apply perm_swap.
Qed.

Lemma sort_Slice_perm l : Permutation (sort_Slice (less_by key) l) l.
Proof.
  induction l as [|x l IH]; simpl; [done|].
  fold (sort_Slice (less_by key) l). rewrite insert_by_perm. by constructor.
Qed.

Lemma insert_by_sorted x l :
  StronglySorted (le_by key) l -> StronglySorted (le_by key) (insert_by (less_by key) x l).
Proof.
  induction 1 as [|y l Hl IH Hy]; simpl.
  - repeat constructor.
  - unfold less_by at 1. destruct (key y <? key x)%Z eqn:E.
    + apply Z.ltb_lt in E. constructor; [exact IH|].
      rewrite insert_by_perm. constructor; [unfold le_by; lia|exact Hy].
    + apply Z.ltb_ge in E. constructor; [by constructor|].
      constructor; [exact E|].
      eapply Forall_impl; [exact Hy|]. unfold le_by. intros z Hz. lia.
Qed.

Lemma sort_Slice_sorted l : StronglySorted (le_by key) (sort_Slice (less_by key) l).
Proof.
  induction l as [|x l IH]; simpl; [constructor|].
  by apply insert_by_sorted.
Qed.

(** Two arrival orders of the same elements sort to the same keys. *)
Lemma sort_Slice_keys l l' :
  Permutation l l' ->
  List.map key (sort_Slice (less_by key) l) = List.map key (sort_Slice (less_by key) l').
Proof.
  intros Hp.
  apply (StronglySorted_unique Z.le).
  - apply (StronglySorted_fmap key (le_by key)); [done|apply sort_Slice_sorted].
  - apply (StronglySorted_fmap key (le_by key)); [done|apply sort_Slice_sorted].
  - apply fmap_Permutation. by rewrite !sort_Slice_perm.
Qed.

End SortByKey.

Lemma finish_app res task : finish res task = res ++ finish [] task.
Proof. unfold finish. destruct task.2 as [[at_ buf]|]; simpl; by rewrite ?app_nil_r. Qed.

(** The slice when [wg.Wait] returns: what was there, then the successful
    captures in the order of their arrival. *)
Lemma join_results sc fin :
  results (join sc fin)
  = results sc ++ flat_map (fun i => match wg sc !! i with
                                     | Some task => finish [] task
                                     | None => []
                                     end) fin.
Proof.
  unfold join. cbn [results]. generalize (results sc) as res.
  induction fin as [|i fin IH]; intros res; simpl; [by rewrite app_nil_r|].
  rewrite IH. destruct (wg sc !! i) as [task|]; [|done].
  by rewrite (finish_app res), <- app_assoc.
Qed.

(** C6.  Whatever the order in which the screenshot goroutines append,
    [wait] returns the screenshots taken, each once, in ascending order of
    their stage in [lifecycleOrder], where load comes before
    firstContentfulPaint and that before networkIdle; two orders of arrival
    of the same captures give the same sequence of stage ranks. *)
Theorem screenshots_in_lifecycle_order (sc : screenshotCollector) (fin : list nat) :
  let out := screenshotCollector_wait sc fin in
  StronglySorted (fun a b => (order_of (Stage a) <= order_of (Stage b))%Z) out
  /\ Permutation out (results (join sc fin))
  /\ (order_of StageDocumentLoad < order_of StageFirstContentfulPaint
      < order_of StageNetworkIdle)%Z
  /\ forall fin',
       Permutation fin fin' ->
       List.map (fun s => order_of (Stage s)) out
       = List.map (fun s => order_of (Stage s)) (screenshotCollector_wait sc fin').
Proof.
  intros out. subst out. unfold screenshotCollector_wait, less_stage.
  split; [apply (sort_Slice_sorted (fun s => order_of (Stage s)))|].
  split; [apply (sort_Slice_perm (fun s => order_of (Stage s)))|].
  split; [by vm_compute|].
  intros fin' Hp. apply (sort_Slice_keys (fun s => order_of (Stage s))).
  rewrite !join_results. apply Permutation_app_head.
  by apply Permutation_flat_map.
Qed.

Lemma screenshots_in_lifecycle_order_witness :
  let sc := {| wg := [(StageDocumentLoad, Some (10%Z, []));
                      (StageFirstContentfulPaint, Some (20%Z, []));
                      (StageNetworkIdle, Some (30%Z, []))];
               results := [] |} in
  List.map Stage (screenshotCollector_wait sc [2; 0; 1])
  = [StageDocumentLoad; StageFirstContentfulPaint; StageNetworkIdle]
  /\ List.map (fun s => order_of (Stage s)) (screenshotCollector_wait sc [2; 0; 1])
     = List.map (fun s => order_of (Stage s)) (screenshotCollector_wait sc [0; 1; 2]).
Proof.
  intros sc. split; [reflexivity|].
  destruct (screenshots_in_lifecycle_order sc [2; 0; 1]) as (_ & _ & _ & H).
  apply H.
  apply (perm_trans (perm_swap 0 2 [1])). apply perm_skip. apply perm_swap.
Defined.

(* ------------------------------------------------------------------- *)
(** *** Option defaults *)

Lemma Capture_asked browser opts :
  Capture browser opts
  = if bool_decide (OptURL opts = EmptyString)
    then Failed (errorString "capture: URL must not be empty")
    else
      let b := browser (asked opts) in
      if is_panicked (listener (navigated b opts)) then Crashed
      else
        match navResult b with
        | Some err =>
            if negb (isTimeoutError err)
            then Failed (Errorf_w "capture: navigation failed: " err)
            else
              let wr := awaited b opts in
              if is_panicked (listener wr.1) then Crashed
              else
                let sc3 :=
                  if Screenshots opts && true
                  then screenshotCollector_capture (sc wr.1) StageNetworkIdle
                         (shots b (length (wg (sc wr.1))))
                  else sc wr.1 in
                Returned {| ResHAR := assembleHAR (pages wr.2) (entries wr.2)
                                        (browserVersion_of opts);
                            TTFB := extractTTFB (entries wr.2);
                            ResScreenshots := screenshotCollector_wait sc3 (finished b);
                            TimedOut := true |}
        | None =>
            let wr := awaited b opts in
            if is_panicked (listener wr.1) then Crashed
            else
              let sc3 :=
                if Screenshots opts && timedOut wr.2
                then screenshotCollector_capture (sc wr.1) StageNetworkIdle
                       (shots b (length (wg (sc wr.1))))
                else sc wr.1 in
              Returned {| ResHAR := assembleHAR (pages wr.2) (entries wr.2)
                                      (browserVersion_of opts);
                          TTFB := extractTTFB (entries wr.2);
                          ResScreenshots := screenshotCollector_wait sc3 (finished b);
                          TimedOut := timedOut wr.2 |}
        end.
Proof.
  unfold Capture, asked. destruct (viewport_of opts) as [vw vh].
  case_bool_decide; [done|]. cbv zeta.
  destruct (is_panicked _); [done|].
  destruct (navResult _) as [err|].
  - destruct (isTimeoutError err); simpl; [|done].
    destruct (awaited _ opts) as [w2 r]. simpl. done.
  - destruct (awaited _ opts) as [w2 r]. simpl. done.
Qed.

(** C9.  When a viewport dimension is zero, [Capture] takes 1920 by 1080
    for both, so that a run with one dimension set and the other zero is
    the run with the default viewport: the dimension the caller set has no
    effect.  With both set, the browser is asked for them as given. *)
Theorem viewport_defaults_when_either_zero
    (browser : navigation -> behaviour) (opts : Options) :
  ((ViewportWidth opts = 0 \/ ViewportHeight opts = 0)%Z ->
     viewport_of opts = (1920%Z, 1080%Z)
     /\ EmulateViewport (asked opts) = (1920%Z, 1080%Z)
     /\ Capture browser opts = Capture browser (with_viewport opts 1920 1080))
  /\ (ViewportWidth opts <> 0%Z -> ViewportHeight opts <> 0%Z ->
      EmulateViewport (asked opts) = (ViewportWidth opts, ViewportHeight opts)).
Proof.
  split.
  - intros Hz.
    assert (Hv : viewport_of opts = (1920%Z, 1080%Z)).
    { unfold viewport_of. destruct Hz as [-> | ->]; simpl; [done|].
      by rewrite orb_true_r. }
    split; [exact Hv|]. split; [exact Hv|].
    rewrite !Capture_asked.
    assert (Ha : asked (with_viewport opts 1920 1080) = asked opts).
    { unfold asked. rewrite Hv. reflexivity. }
    rewrite Ha. reflexivity.
  - intros Hw Hh. unfold asked, viewport_of. simpl.
    apply Z.eqb_neq in Hw, Hh. by rewrite Hw, Hh.
Qed.

Lemma viewport_defaults_when_either_zero_witness :
  let opts := with_viewport sample_options 800 0 in
  viewport_of opts = (1920%Z, 1080%Z)
  /\ EmulateViewport (asked opts) = (1920%Z, 1080%Z)
  /\ Capture (fun _ => quiet_page) opts
     = Capture (fun _ => quiet_page) (with_viewport opts 1920 1080).
Proof.
  intros opts.
  destruct (viewport_defaults_when_either_zero (fun _ => quiet_page) opts) as [H _].
  apply H. right. reflexivity.
Defined.

(* ------------------------------------------------------------------- *)
(** *** The session never panics *)

Lemma send_keeps_done c v c' :
  send c v = Some c' -> onceDone c' = onceDone c /\ doneClosed c' = doneClosed c.
Proof.
  unfold send. destruct (_ <? _)%nat; [|done]. by intros [= <-].
Qed.

Lemma sent_ok w (r : gmap string pendingRequest * option collector) :
  (forall c', r.2 = Some c' ->
     onceDone c' = onceDone (coll w) /\ doneClosed c' = doneClosed (coll w)) ->
  session_ok w -> session_ok (sent w r).
Proof.
  intros Hr [Hinv _]. unfold sent, session_ok.
  destruct r.2 as [c'|] eqn:E; simpl; [|done].
  destruct (Hr c' eq_refl) as [-> ->]. done.
Qed.

Lemma listen_ok screenshots shots w ev :
  session_ok w -> session_ok (listen screenshots shots w ev).
Proof.
  intros Hok. destruct ev as [ev|ev|name|]; simpl; [| | |done].
  - apply sent_ok; [|done]. unfold onRequest.
    case_bool_decide; simpl; [apply send_keeps_done|by intros c' [= <-]].
  - apply sent_ok; [|done]. unfold onResponse.
    destruct (correlate (store w) ev) as [[e|] st']; simpl;
      [apply send_keeps_done|by intros c' [= <-]].
  - destruct Hok as [Hinv Hl].
    destruct (_ || _); [done|]. case_bool_decide; [|done].
    unfold markDone, onceCloser_close, close_chan. rewrite Hinv.
    destruct (doneClosed (coll w)) eqn:E; simpl; split; simpl; congruence.
Qed.

Lemma step_ok screenshots shots w a :
  session_ok w -> session_ok (step screenshots shots w a).
Proof.
  intros Hok. destruct a as [ev|]; simpl; [|done].
  destruct (listener w); [by apply listen_ok|done|done].
Qed.

Lemma steps_ok screenshots shots trace : forall w,
  session_ok w -> session_ok (fold_left (step screenshots shots) trace w).
Proof.
  induction trace as [|a trace IH]; intros w Hok; [done|].
  simpl. apply IH. by apply step_ok.
Qed.

Lemma wait_blocking_ok screenshots shots pick trace : forall w,
  session_ok w -> session_ok (wait_blocking screenshots shots pick w trace).1.
Proof.
  induction trace as [|a trace IH]; intros w Hok; simpl.
  - destruct (select _ _ _); simpl; exact Hok.
  - destruct (select _ _ _); simpl; [exact Hok|].
    apply IH. by apply step_ok.
Qed.

Lemma session_ok_not_panicked w : session_ok w -> is_panicked (listener w) = false.
Proof. intros [_ Hl]. by destruct (listener w). Qed.

Lemma navigated_ok b opts : session_ok (navigated b opts).
Proof. apply steps_ok. done. Qed.

Lemma awaited_ok b opts : session_ok (awaited b opts).1.
Proof. apply wait_blocking_ok, navigated_ok. Qed.

(* ------------------------------------------------------------------- *)
(** *** Which signal releases [wait] *)










(* ------------------------------------------------------------------- *)
(** *** The timed-out flag of a result *)

Lemma Capture_never_crashes browser opts : Capture browser opts <> Crashed.
Proof.
  rewrite Capture_asked. case_bool_decide; [done|]. cbv zeta.
  rewrite (session_ok_not_panicked _ (navigated_ok _ opts)).
  rewrite (session_ok_not_panicked _ (awaited_ok _ opts)).
  destruct (navResult _) as [err|]; [|done].
  by destruct (negb (isTimeoutError err)).
Qed.





(* ------------------------------------------------------------------- *)
(** *** Cancellation during navigation *)

Lemma errors_Is_Errorf_w prefix err target :
  errors_Is err target = true -> errors_Is (Errorf_w prefix err) target = true.
Proof. intros H. unfold Errorf_w. simpl. rewrite H. by destruct target. Qed.



End CaptureProps.

(* ===================================================================== *)
(** ** Properties of internal/operation *)
(* ===================================================================== *)

Module OperationProps.
Import Errors Storage Operation Samples CaptureProps.

(* ------------------------------------------------------------------- *)
(** *** Unknown and known identifiers *)

Lemma update_unknown (s : gmap string Operation) id fn now :
  s !! id = None -> update s id fn now = (Some (errNotFound id), s).
Proof. intros H. unfold update. by rewrite H. Qed.

Lemma update_known (s : gmap string Operation) id fn now op :
  s !! id = Some op -> update s id fn now = (None, <[id := touch now (fn op)]> s).
Proof. intros H. unfold update. by rewrite H. Qed.

Lemma update_frame (s : gmap string Operation) id fn now id' :
  id' <> id -> (update s id fn now).2 !! id' = s !! id'.
Proof.
  intros Hne. unfold update. destruct (s !! id); simpl; [|done].
  by rewrite lookup_insert_ne.
Qed.

(** C7.  For an identifier that the store does not hold, [Get] and the
    three mark operations fail with the not-found error and return the
    store as it was.  For an identifier it holds, [Get] returns the record,
    and each mark operation succeeds, replaces the record by the one with
    the new status and results and with [UpdatedAt] set to the clock
    reading, and leaves the record of every other identifier alone. *)
Theorem unknown_id_is_not_found (s : gmap string Operation) (id : string) :
  (s !! id = None ->
     Get s id = inr (errNotFound id)
     /\ (forall now, MarkRunning s id now = (Some (errNotFound id), s))
     /\ (forall ttfb timedOut artefacts now,
           MarkComplete s id ttfb timedOut artefacts now = (Some (errNotFound id), s))
     /\ (forall err now, MarkFailed s id err now = (Some (errNotFound id), s)))
  /\ (forall op,
        s !! id = Some op ->
        Get s id = inl op
        /\ (forall now,
              MarkRunning s id now = (None, <[id := touch now (set_running op)]> s)
              /\ OpStatus (touch now (set_running op)) = StatusRunning
              /\ UpdatedAt (touch now (set_running op)) = now)
        /\ (forall ttfb timedOut artefacts now,
              let op' := touch now (set_complete ttfb timedOut artefacts op) in
              MarkComplete s id ttfb timedOut artefacts now = (None, <[id := op']> s)
              /\ OpStatus op' = StatusComplete
              /\ (OpTTFB op', OpTimedOut op', Artefacts op') = (ttfb, timedOut, artefacts)
              /\ UpdatedAt op' = now)
        /\ (forall err now,
              let op' := touch now (set_failed err op) in
              MarkFailed s id err now = (None, <[id := op']> s)
              /\ OpStatus op' = StatusFailed
              /\ OpError op' = Error err
              /\ UpdatedAt op' = now))
  /\ (forall id' fn now, id' <> id -> (update s id fn now).2 !! id' = s !! id').
Proof.
  split; [|split].
  - intros Hn. split; [by unfold Get; rewrite Hn|].
    repeat split; intros; by apply update_unknown.
  - intros op Hk. split; [by unfold Get; rewrite Hk|].
    repeat split; by apply update_known.
  - intros id' fn now. apply update_frame.
Qed.

Lemma unknown_id_is_not_found_witness :
  Get sample_store "op-2" = inr (errNotFound "op-2")
  /\ MarkRunning sample_store "op-2" 5 = (Some (errNotFound "op-2"), sample_store)
  /\ status_of (MarkRunning sample_store "op-1" 5).2 "op-1" = Some StatusRunning.
Proof.
  destruct (unknown_id_is_not_found sample_store "op-2") as (Hn & _ & _).
  destruct (Hn eq_refl) as (Hg & Hr & _).
  split; [exact Hg|]. split; [apply Hr|].
  destruct (unknown_id_is_not_found sample_store "op-1") as (_ & Hk & _).
  destruct (Hk _ eq_refl) as (_ & Hrun & _).
  destruct (Hrun 5%Z) as (-> & _). reflexivity.
Defined.

(* ------------------------------------------------------------------- *)
(** *** The lifecycle *)


Lemma known_after_update (s : gmap string Operation) id fn now op :
  s !! id = Some op -> (update s id fn now).2 !! id = Some (touch now (fn op)).
Proof.
  intros H. rewrite (update_known _ _ _ _ _ H). simpl. by rewrite lookup_insert_eq.
Qed.







End OperationProps.

(* ===================================================================== *)
(** ** Further properties of internal/capture *)
(* ===================================================================== *)

Module CaptureMore.
Import Network Errors Capture Runs Samples CaptureProps.

(* ------------------------------------------------------------------- *)
(** *** The correlator, continued *)

(** X1.  Registering a request and then correlating a response with its
    identifier pairs that very request with the response, also when an
    older request was pending under the identifier, and leaves the store
    without the identifier: a store that did not hold it is back as it
    was. *)
Theorem register_then_correlate (s : gmap string pendingRequest)
    (r : pendingRequest) (ev : EventResponseReceived) :
  RecvRequestID ev = requestID r ->
  correlate (addRequest s r) ev
  = (Some {| request := r; response := ev |}, delete (requestID r) s)
  /\ (s !! requestID r = None -> (correlate (addRequest s r) ev).2 = s).
Proof.
  intros Hid.
  assert (Hc : correlate (addRequest s r) ev
               = (Some {| request := r; response := ev |}, delete (requestID r) s)).
  { unfold correlate, addRequest. rewrite Hid, lookup_insert_eq.
    by rewrite delete_insert_eq. }
  split; [exact Hc|].
  intros Hn. rewrite Hc. simpl. by apply delete_id.
Qed.

Lemma register_then_correlate_witness :
  correlate (addRequest newRequestStore (sample_pending "7")) (sample_response "7" ∅)
  = (Some {| request := sample_pending "7"; response := sample_response "7" ∅ |},
     delete "7" newRequestStore)
  /\ (correlate (addRequest newRequestStore (sample_pending "7"))
        (sample_response "7" ∅)).2 = newRequestStore.
Proof.
  destruct (register_then_correlate newRequestStore (sample_pending "7")
              (sample_response "7" ∅) eq_refl) as [H1 H2].
  split; [exact H1|]. apply H2. reflexivity.
Defined.

Lemma filed_addRequest s r : filed s -> filed (addRequest s r).
Proof.
  intros Hf k r' Hk. unfold addRequest in Hk.
  destruct (decide (requestID r = k)) as [<-|Hne].
  - rewrite lookup_insert_eq in Hk. by injection Hk as <-.
  - rewrite lookup_insert_ne in Hk by done. by apply Hf.
Qed.

Lemma filed_correlate s ev : filed s -> filed (correlate s ev).2.
Proof.
  intros Hf k r Hk. unfold correlate in Hk.
  destruct (s !! RecvRequestID ev); simpl in Hk; [|by apply Hf].
  apply lookup_delete_Some in Hk as [_ Hk]. by apply Hf.
Qed.

Lemma run_calls_filed cs : forall s,
  filed s ->
  Forall (fun e => requestID (request e) = RecvRequestID (response e)) (run_calls cs s).2.
Proof.
  induction cs as [|c cs IH]; intros s Hf; [constructor|].
  destruct c as [r|ev]; simpl.
  - apply IH. by apply filed_addRequest.
  - pose proof (filed_correlate s ev Hf) as Hf'.
    destruct (correlate s ev) as [o s'] eqn:E. simpl in Hf'.
    specialize (IH s' Hf'). destruct (run_calls cs s') as [s'' out]. simpl in *.
    destruct o as [e|]; [|done]. constructor; [|done].
    unfold correlate in E. destruct (s !! RecvRequestID ev) as [req|] eqn:El; [|done].
    injection E as <- _. simpl. by apply Hf.
Qed.

(** X2.  Along every sequence of registrations and correlations that starts
    from the empty store, each entry that is paired joins a response with a
    request of the same identifier. *)
Theorem paired_entries_share_the_identifier (cs : list call) :
  Forall (fun e => requestID (request e) = RecvRequestID (response e))
         (run_calls cs newRequestStore).2.
Proof.
  apply run_calls_filed. unfold filed, newRequestStore. intros k r Hk.
  by rewrite lookup_empty in Hk.
Qed.

(* ------------------------------------------------------------------- *)
(** *** The event collector, continued *)

Lemma send_full c v :
  send c v = None <-> (resultCap <= length (resultCh c))%nat.
Proof.
  unfold send. destruct (length (resultCh c) <? resultCap)%nat eqn:E.
  - apply Nat.ltb_lt in E. split; [done|lia].
  - apply Nat.ltb_ge in E. done.
Qed.

Lemma reachable_bounded c : reachable c -> (length (resultCh c) <= resultCap)%nat.
Proof.
  induction 1 as [|c v c' _ IH Hs|c c' _ IH Hm|c expired pick w _ IH Hw].
  - simpl. unfold resultCap. lia.
  - unfold send in Hs. destruct (length (resultCh c) <? resultCap)%nat eqn:E; [|done].
    apply Nat.ltb_lt in E. injection Hs as <-. simpl. rewrite length_app. simpl. lia.
  - unfold markDone, onceCloser_close, close_chan in Hm.
    destruct (negb (onceDone c)); [|by injection Hm as <-].
    destruct (doneClosed c); [done|]. by injection Hm as <-.
  - unfold wait in Hw. destruct (select c expired pick); [|done].
    injection Hw as <-. simpl. lia.
Qed.

(** X3.  The buffer of a collector never holds more than 64 events, and
    [send] blocks exactly when it holds 64; otherwise the event is appended
    behind the ones buffered and the completion signal is left alone. *)
Theorem buffer_is_bounded (c : collector) (v : event) :
  reachable c ->
  (length (resultCh c) <= 64)%nat
  /\ (send c v = None <-> length (resultCh c) = 64%nat)
  /\ (forall c', send c v = Some c' ->
        resultCh c' = resultCh c ++ [v] /\ doneClosed c' = doneClosed c).
Proof.
  intros Hr. pose proof (reachable_bounded c Hr) as Hb. unfold resultCap in Hb.
  split; [exact Hb|]. split.
  - rewrite send_full. unfold resultCap. lia.
  - intros c' Hs. unfold send in Hs. destruct (_ <? _)%nat; [|done].
    by injection Hs as <-.
Qed.

Lemma buffer_is_bounded_witness :
  let v := EvEntry {| request := sample_pending "7"; response := sample_response "7" ∅ |} in
  (length (resultCh newCollector) <= 64)%nat
  /\ send newCollector v <> None
  /\ exists c', send newCollector v = Some c'
               /\ resultCh c' = resultCh newCollector ++ [v]
               /\ doneClosed c' = doneClosed newCollector.
Proof.
  intros v.
  destruct (buffer_is_bounded newCollector v reach_new) as (H1 & H2 & H3).
  split; [exact H1|]. split.
  - intros Hn. apply H2 in Hn. discriminate Hn.
  - eexists. split; [reflexivity|]. apply H3. reflexivity.
Defined.

Lemma send_all_fits vs : forall c,
  (length (resultCh c) + length vs <= resultCap)%nat ->
  send_all c vs
  = Some {| resultCh := resultCh c ++ vs; doneClosed := doneClosed c;
            onceDone := onceDone c |}.
Proof.
  induction vs as [|v vs IH]; intros c Hlen; simpl.
  - rewrite app_nil_r. by destruct c.
  - simpl in Hlen. unfold send.
    destruct (length (resultCh c) <? resultCap)%nat eqn:E;
      [|apply Nat.ltb_ge in E; lia].
    simpl. rewrite IH; simpl.
    + by rewrite <- app_assoc.
    + rewrite length_app. simpl. lia.
Qed.

Lemma send_all_overflows vs : forall c,
  (resultCap < length (resultCh c) + length vs)%nat ->
  (length (resultCh c) <= resultCap)%nat ->
  send_all c vs = None.
Proof.
  induction vs as [|v vs IH]; intros c Hlen Hb; simpl in *; [lia|].
  unfold send. destruct (length (resultCh c) <? resultCap)%nat eqn:E; [|done].
  apply Nat.ltb_lt in E. simpl. apply IH; simpl; rewrite length_app; simpl; lia.
Qed.

(** X4.  Up to 64 events sent to a new collector are all accepted, and
    after [markDone] the next [wait] hands back the pages among them and
    the entries among them, each in the order sent, without a cutoff; one
    event more and a [send] blocks. *)
Theorem sent_events_come_back_in_order (vs : list event) (pick : selected) :
  ((length vs <= 64)%nat ->
     exists c c1 w,
       send_all newCollector vs = Some c
       /\ markDone c = Some c1
       /\ wait c1 false pick = Some w
       /\ timedOut w = false
       /\ pages w = pages_of vs
       /\ entries w = entries_of vs)
  /\ ((64 < length vs)%nat -> send_all newCollector vs = None).
Proof.
  split.
  - intros Hlen. rewrite (send_all_fits vs newCollector) by (simpl; unfold resultCap; lia).
    simpl. eexists _, _, _. split; [done|]. split; [reflexivity|].
    split; [reflexivity|]. split; [done|].
    destruct (released_events
                {| resultCh := vs; doneClosed := true; onceDone := true |} SelDone)
      as (Hp & He & _).
    split; [exact Hp|exact He].
  - intros Hlen. apply send_all_overflows; simpl; unfold resultCap; lia.
Qed.

Lemma sent_events_come_back_in_order_witness :
  let p := {| PageID := "page_7"; PageStartedDateTime := 0;
              PageTitle := "https://example.com/" |} in
  let e := {| request := sample_pending "7"; response := sample_response "7" ∅ |} in
  exists c c1 w,
    send_all newCollector [EvPage p; EvEntry e] = Some c
    /\ markDone c = Some c1
    /\ wait c1 false SelCtx = Some w
    /\ timedOut w = false
    /\ pages w = pages_of [EvPage p; EvEntry e]
    /\ entries w = entries_of [EvPage p; EvEntry e].
Proof.
  intros p e.
  destruct (sent_events_come_back_in_order [EvPage p; EvEntry e] SelCtx) as [H _].
  apply H. simpl. lia.
Defined.

(** X5.  [wait] hands an event over once: a [wait] that follows another one
    with no [send] in between returns no page and no entry, and the
    completion signal is as the first [wait] found it. *)
Theorem wait_hands_over_once (c : collector) (expired expired' : bool)
    (pick pick' : selected) (w w' : waited) :
  wait c expired pick = Some w ->
  wait (after w) expired' pick' = Some w' ->
  pages w' = [] /\ entries w' = [] /\ doneClosed (after w) = doneClosed c.
Proof.
  unfold wait. intros Hw Hw'.
  destruct (select c expired pick) as [sel|]; [|done]. injection Hw as <-.
  destruct (select _ expired' pick') as [sel'|]; [|done]. injection Hw' as <-.
  done.
Qed.

Lemma wait_hands_over_once_witness :
  let c := {| resultCh := [EvPage {| PageID := "page_7"; PageStartedDateTime := 0;
                                     PageTitle := "https://example.com/" |}];
              doneClosed := true; onceDone := true |} in
  exists w w',
    wait c false SelDone = Some w
    /\ wait (after w) true SelCtx = Some w'
    /\ pages w' = [] /\ entries w' = [] /\ doneClosed (after w) = doneClosed c.
Proof.
  intros c. eexists _, _. split; [reflexivity|]. split; [reflexivity|].
  eapply (wait_hands_over_once c false true SelDone SelCtx); reflexivity.
Defined.

(* ------------------------------------------------------------------- *)
(** *** The archive assembler, continued *)

(** X6.  An entry whose response carries no timing has the send, wait and
    receive phases absent, the blocked, DNS, connect and SSL phases at
    zero, the zero value of the fields the literal leaves out, and a total
    time of zero. *)
Theorem entry_without_timing (e : completedEntry) :
  Timing (RecvResponse (response e)) = None ->
  let tm := EntryTimings (buildEntry e) in
  (Send tm, Wait tm, Receive tm) = ((-1)%Q, (-1)%Q, (-1)%Q)
  /\ (Blocked tm, DNS tm, Connect tm, Ssl tm) = (0%Q, 0%Q, 0%Q, 0%Q)
  /\ (Time (buildEntry e) == 0)%Q.
Proof.
  intros Hn tm. subst tm. unfold buildEntry. cbn [EntryTimings Time]. rewrite Hn.
  split; [done|]. split; [done|]. by vm_compute.
Qed.

Lemma entry_without_timing_witness :
  let e := {| request := sample_pending "7";
              response := {| RecvRequestID := "7";
                             RecvResponse := {| Status := 204; StatusText := "No Content";
                                                RespHeaders := ∅; MimeType := EmptyString;
                                                Protocol := "h2"; Timing := None |} |} |} in
  let tm := EntryTimings (buildEntry e) in
  (Blocked tm, DNS tm, Connect tm, Ssl tm) = (0%Q, 0%Q, 0%Q, 0%Q)
  /\ (Time (buildEntry e) == 0)%Q.
Proof.
  intros e tm. destruct (entry_without_timing e eq_refl) as (_ & H & Ht).
  split; [exact H|exact Ht].
Defined.

Lemma sum_nonneg_bounds l :
  (0 <= sum_nonneg l)%Q /\ Forall (fun v => (v <= sum_nonneg l)%Q) l.
Proof.
  induction l as [|v l [IH0 IH]]; simpl; [split; [lra|constructor]|].
  destruct (Qle_bool 0 v) eqn:E.
  - apply Qle_bool_iff in E. split; [lra|]. constructor; [lra|].
    eapply Forall_impl; [exact IH|]. intros z Hz. simpl in Hz. lra.
  - assert (Hv : (v < 0)%Q).
    { apply Qnot_le_lt. intros Hle. apply Qle_bool_iff in Hle. congruence. }
    split; [exact IH0|]. constructor; [lra|exact IH].
Qed.

(** X7.  The total time of an entry is never negative, and none of the
    summed phases (blocked, DNS, connect, send, wait, receive) exceeds
    it. *)
Theorem total_time_bounds (e : completedEntry) :
  let tm := EntryTimings (buildEntry e) in
  (0 <= Time (buildEntry e))%Q
  /\ Forall (fun v => (v <= Time (buildEntry e))%Q)
            [Blocked tm; DNS tm; Connect tm; Send tm; Wait tm; Receive tm].
Proof.
  intros tm. subst tm. unfold buildEntry. cbn [EntryTimings Time].
  set (tm := buildTimings _).
  pose proof (totalTime_sum tm) as Ht.
  destruct (sum_nonneg_bounds
              [Blocked tm; DNS tm; Connect tm; Send tm; Wait tm; Receive tm]) as [H0 Hall].
  split; [rewrite Ht; exact H0|].
  eapply Forall_impl; [exact Hall|]. intros v Hv. simpl in Hv. rewrite Ht. exact Hv.
Qed.

(** X8.  The name-value pairs of a header map: a pair is listed exactly
    when the map holds its name with a string that is the value, or with a
    slice of strings of which the value is one.  A header whose slice is
    empty gives no pair. *)
Theorem header_pairs (h : gmap string any) (name value : string) :
  {| Name := name; Value := value |} ∈ headersToHAR h <->
  exists v, h !! name = Some v
            /\ match v with
               | AString s => value = s
               | AStrings arr => value ∈ arr
               end.
Proof.
  unfold headersToHAR, range_of. rewrite list_elem_of_In, in_flat_map. split.
  - intros ([k v] & Hin & Hp). apply list_elem_of_In, elem_of_map_to_list in Hin.
    simpl in Hp. destruct v as [s|arr].
    + destruct Hp as [Hp|[]]. injection Hp as <- <-. exists (AString s). done.
    + apply in_map_iff in Hp as (x & Hx & Hin'). injection Hx as <- <-.
      exists (AStrings arr). split; [done|]. by apply list_elem_of_In.
  - intros (v & Hv & Hm). exists (name, v). split.
    + by apply list_elem_of_In, elem_of_map_to_list.
    + simpl. destruct v as [s|arr].
      * left. by rewrite Hm.
      * apply in_map_iff. exists value. split; [done|]. by apply list_elem_of_In.
Qed.

(** X27.  When the response headers hold exactly one of the names
    Location and location, the redirect URL of the entry is the value of
    that header as [fmt.Sprint] prints it, whatever the other headers
    are. *)
Theorem redirect_target_of_known_spelling (e : completedEntry) (k : string) (v : any) :
  let h := RespHeaders (RecvResponse (response e)) in
  is_location k = true ->
  h !! k = Some v ->
  (forall k', is_location k' = true -> k' <> k -> h !! k' = None) ->
  RedirectURL (EntryResponse (buildEntry e)) = Sprint v.
Proof.
  intros h Hk Hv Hother. unfold buildEntry. cbn [EntryResponse RedirectURL].
  by apply (redirectURL_known_spelling h k v).
Qed.

Lemma redirect_target_of_known_spelling_witness :
  RedirectURL (EntryResponse (buildEntry
    {| request := sample_pending "7";
       response := sample_response "7"
                     {[ "location"%string := AString "/next";
                        "Content-Type"%string := AString "text/html" ]} |}))
  = "/next"%string.
Proof.
  apply (redirect_target_of_known_spelling _ "location" (AString "/next")).
  - reflexivity.
  - reflexivity.
  - intros k' Hk' Hne. unfold is_location in Hk'.
    apply orb_true_iff in Hk' as [Hk'|Hk']; apply bool_decide_eq_true in Hk'; subst k';
      [reflexivity|done].
Defined.

(* ------------------------------------------------------------------- *)
(** *** Time to first byte *)





(* ------------------------------------------------------------------- *)
(** *** The listener *)

Lemma session_eta (w : session) :
  {| store := store w; coll := coll w; sc := sc w; ctxDone := ctxDone w;
     listener := listener w |} = w.
Proof. by destruct w. Qed.

(** X10.  A response for which no request is pending is dropped: the
    listener leaves the store, the collector and the rest of the session as
    they are. *)
Theorem unmatched_response_is_dropped
    (screenshots : bool) (shots : nat -> shot) (w : session)
    (ev : EventResponseReceived) :
  listener w = Listening ->
  store w !! RecvRequestID ev = None ->
  step screenshots shots w (Deliver (ResponseReceived ev)) = w.
Proof.
  intros Hl Hn. simpl. rewrite Hl. simpl. unfold onResponse, correlate.
  rewrite Hn. unfold sent. simpl. rewrite <- Hl. apply session_eta.
Qed.

Lemma unmatched_response_is_dropped_witness :
  step false (fun _ => None) newSession (Deliver (ResponseReceived (sample_response "9" ∅)))
  = newSession.
Proof.
  apply unmatched_response_is_dropped; reflexivity.
Defined.

(** X11.  A document request whose page fits the buffer registers the
    request and buffers one page; the entry that a response with its
    identifier is then paired into refers to that page, and the title of
    the page is the URL of the entry's request. *)
Theorem entry_refers_to_its_page
    (ev : EventRequestWillBeSent) (resp : EventResponseReceived)
    (st : gmap string pendingRequest) (c : collector) :
  SentType ev = ResourceTypeDocument ->
  RecvRequestID resp = SentRequestID ev ->
  (length (resultCh c) < 64)%nat ->
  exists st' c' p e,
    onRequest ev st c = (st', Some c')
    /\ resultCh c' = resultCh c ++ [EvPage p]
    /\ correlate st' resp = (Some e, delete (SentRequestID ev) st)
    /\ Pageref (buildEntry e) = PageID p
    /\ ReqURL (EntryRequest (buildEntry e)) = PageTitle p.
Proof.
  intros Hdoc Hid Hroom. unfold onRequest. rewrite bool_decide_eq_true_2 by done.
  unfold send. replace (length (resultCh c) <? resultCap)%nat with true
    by (symmetry; apply Nat.ltb_lt; unfold resultCap; lia).
  eexists _, _, _, _. split; [reflexivity|]. split; [reflexivity|].
  split.
  { unfold correlate, addRequest. simpl. rewrite Hid, lookup_insert_eq.
    by rewrite delete_insert_eq. }
  split; reflexivity.
Qed.

Lemma entry_refers_to_its_page_witness :
  exists st' c' p e,
    onRequest (sample_request "7" ResourceTypeDocument) newRequestStore newCollector
    = (st', Some c')
    /\ resultCh c' = resultCh newCollector ++ [EvPage p]
    /\ correlate st' (sample_response "7" ∅) = (Some e, delete "7" newRequestStore)
    /\ Pageref (buildEntry e) = PageID p
    /\ ReqURL (EntryRequest (buildEntry e)) = PageTitle p.
Proof.
  apply (entry_refers_to_its_page (sample_request "7" ResourceTypeDocument)
           (sample_response "7" ∅) newRequestStore newCollector);
    [reflexivity|reflexivity|simpl; lia].
Defined.

(* ------------------------------------------------------------------- *)
(** *** Failures of [Capture] *)

Lemma isTimeoutError_wrapped prefix err :
  isTimeoutError (Errorf_w prefix err) = isTimeoutError err.
Proof. reflexivity. Qed.

(** X12.  [Capture] with an empty URL fails with the URL error, whatever
    the browser would do.  Every error [Capture] returns is that one or
    wraps the error of the navigation command, and is never classified as a
    timeout or a cancellation, also after the worker has wrapped it. *)
Theorem capture_errors_are_not_timeouts
    (browser : navigation -> behaviour) (opts : Options) :
  (OptURL opts = EmptyString ->
     Capture browser opts = Failed (errorString "capture: URL must not be empty"))
  /\ (forall e,
        Capture browser opts = Failed e ->
        isTimeoutError e = false
        /\ isTimeoutError (Errorf_w "capture: " e) = false
        /\ (e = errorString "capture: URL must not be empty"
            \/ exists err,
                 navResult (browser (asked opts)) = Some err
                 /\ e = Errorf_w "capture: navigation failed: " err)).
Proof.
  split.
  - intros Hurl. rewrite Capture_asked. by rewrite bool_decide_eq_true_2.
  - intros e. rewrite Capture_asked. case_bool_decide.
    + intros [= <-]. split; [done|]. split; [done|]. by left.
    + cbv zeta.
      rewrite (session_ok_not_panicked _ (navigated_ok _ opts)).
      rewrite (session_ok_not_panicked _ (awaited_ok _ opts)).
      destruct (navResult _) as [err|] eqn:En; [|done].
      destruct (isTimeoutError err) eqn:Ht; simpl; [done|].
      intros [= <-]. rewrite !isTimeoutError_wrapped.
      split; [done|]. split; [done|]. right. by exists err.
Qed.

Lemma capture_errors_are_not_timeouts_witness :
  let unresolved :=
    {| navEvents := []; navResult := Some (errorString "net::ERR_NAME_NOT_RESOLVED");
       waitEvents := []; shots := fun _ => None; finished := []; pick := SelDone |} in
  exists e,
    Capture (fun _ => unresolved) sample_options = Failed e
    /\ isTimeoutError e = false
    /\ Error e = "capture: navigation failed: net::ERR_NAME_NOT_RESOLVED"%string.
Proof.
  intros unresolved. eexists. split; [reflexivity|].
  destruct (capture_errors_are_not_timeouts (fun _ => unresolved) sample_options)
    as [_ H].
  destruct (H _ eq_refl) as (Ht & _ & _). split; [exact Ht|reflexivity].
Defined.

(** X13.  Whatever events a session handles from its start, and however
    often network idle is among them, the listener never panics: the done
    channel is closed exactly when [onceCloser] has recorded it, so that it
    is never closed twice, and [Capture] never ends by a panic. *)
Theorem listener_never_panics
    (screenshots : bool) (shots : nat -> shot) (trace : list action)
    (browser : navigation -> behaviour) (opts : Options) :
  let w := fold_left (step screenshots shots) trace newSession in
  listener w <> Panicked
  /\ onceDone (coll w) = doneClosed (coll w)
  /\ Capture browser opts <> Crashed.
Proof.
  intros w.
  assert (Hok : session_ok w) by (apply steps_ok; done).
  destruct Hok as [Hinv Hl].
  split; [exact Hl|]. split; [exact Hinv|]. apply Capture_never_crashes.
Qed.

(* ------------------------------------------------------------------- *)
(** *** The screenshots of a result *)

Lemma sent_sc w r : sc (sent w r) = sc w.
Proof. unfold sent. by destruct r.2. Qed.

Lemma listen_shots_ok screenshots shots w ev :
  shots_ok (sc w) -> shots_ok (sc (listen screenshots shots w ev)).
Proof.
  intros Hok. pose proof Hok as [Hres Hwg].
  assert (Hspawn : forall stage, known_stage stage ->
            shots_ok (if screenshots
                      then screenshotCollector_capture (sc w) stage
                             (shots (length (wg (sc w))))
                      else sc w)).
  { intros stage Hst. destruct screenshots; [|done].
    split; [done|]. simpl. apply Forall_app. split; [done|].
    constructor; [exact Hst|constructor]. }
  destruct ev as [ev|ev|name|]; simpl; [by rewrite sent_sc|by rewrite sent_sc| |done].
  destruct (bool_decide (name = StageDocumentLoad)) eqn:E1; simpl.
  { apply bool_decide_eq_true in E1. apply Hspawn. by left. }
  destruct (bool_decide (name = StageFirstContentfulPaint)) eqn:E2; simpl.
  { apply bool_decide_eq_true in E2. apply Hspawn. right. by left. }
  destruct (bool_decide (name = StageNetworkIdle)); [|exact Hok].
  destruct (markDone (coll w)); simpl; apply Hspawn; right; by right.
Qed.

Lemma listen_no_shots shots w ev : sc (listen false shots w ev) = sc w.
Proof.
  destruct ev as [ev|ev|name|]; simpl; [apply sent_sc|apply sent_sc| |done].
  destruct (_ || _); [done|]. case_bool_decide; [|done].
  by destruct (markDone (coll w)).
Qed.

Lemma step_shots_ok screenshots shots w a :
  shots_ok (sc w) -> shots_ok (sc (step screenshots shots w a)).
Proof.
  intros H. destruct a as [ev|]; simpl; [|done].
  destruct (listener w); [by apply listen_shots_ok|done|done].
Qed.

Lemma step_no_shots shots w a : sc (step false shots w a) = sc w.
Proof.
  destruct a as [ev|]; simpl; [|done].
  destruct (listener w); [apply listen_no_shots|done|done].
Qed.

Lemma steps_shots_ok screenshots shots trace : forall w,
  shots_ok (sc w) -> shots_ok (sc (fold_left (step screenshots shots) trace w)).
Proof.
  induction trace as [|a trace IH]; intros w H; [done|].
  simpl. apply IH. by apply step_shots_ok.
Qed.

Lemma steps_no_shots shots trace : forall w,
  sc (fold_left (step false shots) trace w) = sc w.
Proof.
  induction trace as [|a trace IH]; intros w; [done|].
  simpl. rewrite IH. apply step_no_shots.
Qed.

Lemma wait_blocking_shots_ok screenshots shots pick trace : forall w,
  shots_ok (sc w) -> shots_ok (sc (wait_blocking screenshots shots pick w trace).1).
Proof.
  induction trace as [|a trace IH]; intros w H; simpl.
  - by destruct (select _ _ _).
  - destruct (select _ _ _); [done|]. apply IH. by apply step_shots_ok.
Qed.

Lemma wait_blocking_no_shots shots pick trace : forall w,
  sc (wait_blocking false shots pick w trace).1 = sc w.
Proof.
  induction trace as [|a trace IH]; intros w; simpl.
  - by destruct (select _ _ _).
  - destruct (select _ _ _); [done|]. rewrite IH. apply step_no_shots.
Qed.

(** The collector [Capture] joins: that of the session after [wait], with
    one more capture when screenshots are on. *)
Lemma Capture_screenshots browser opts r :
  Capture browser opts = Returned r ->
  let b := browser (asked opts) in
  exists sc3,
    ResScreenshots r = screenshotCollector_wait sc3 (finished b)
    /\ (sc3 = sc (awaited b opts).1
        \/ Screenshots opts = true
           /\ sc3 = screenshotCollector_capture (sc (awaited b opts).1) StageNetworkIdle
                      (shots b (length (wg (sc (awaited b opts).1))))).
Proof.
  rewrite Capture_asked. case_bool_decide; [done|]. cbv zeta.
  rewrite (session_ok_not_panicked _ (navigated_ok _ opts)).
  rewrite (session_ok_not_panicked _ (awaited_ok _ opts)).
  destruct (navResult _) as [err|].
  - destruct (isTimeoutError err); simpl; [|done].
    intros [= <-]. simpl. eexists. split; [reflexivity|].
    destruct (Screenshots opts); simpl; [right|left]; done.
  - intros [= <-]. simpl. eexists. split; [reflexivity|].
    destruct (Screenshots opts); simpl; [|by left].
    destruct (timedOut _); simpl; [right|left]; done.
Qed.

Lemma join_nothing fin : join {| wg := []; results := [] |} fin
                         = {| wg := []; results := [] |}.
Proof.
  unfold join. f_equal. simpl. induction fin as [|i fin IH]; [done|]. exact IH.
Qed.

(** X14.  With screenshots disabled the result holds no screenshot. *)
Theorem no_screenshots_when_disabled
    (browser : navigation -> behaviour) (opts : Options) (r : Result) :
  Screenshots opts = false ->
  Capture browser opts = Returned r ->
  ResScreenshots r = [].
Proof.
  intros Hoff Hret.
  destruct (Capture_screenshots _ _ _ Hret) as (sc3 & -> & [->|[Hon _]]);
    [|congruence].
  unfold awaited, navigated. rewrite Hoff.
  rewrite wait_blocking_no_shots, steps_no_shots. simpl.
  unfold screenshotCollector_wait. by rewrite join_nothing.
Qed.

Lemma no_screenshots_when_disabled_witness :
  match Capture (fun _ => quiet_page) sample_options with
  | Returned r => ResScreenshots r = []
  | _ => False
  end.
Proof.
  destruct (Capture (fun _ => quiet_page) sample_options) as [r|e|] eqn:E.
  - apply (no_screenshots_when_disabled (fun _ => quiet_page) sample_options r eq_refl E).
  - vm_compute in E. discriminate E.
  - vm_compute in E. discriminate E.
Defined.

Lemma wait_known_and_sorted sc3 fin :
  shots_ok sc3 ->
  Forall (fun s => known_stage (Stage s)) (screenshotCollector_wait sc3 fin)
  /\ StronglySorted (le_by (fun s => order_of (Stage s))) (screenshotCollector_wait sc3 fin).
Proof.
  intros [Hres Hwg]. split.
  - assert (Hp : Permutation (screenshotCollector_wait sc3 fin) (results (join sc3 fin)))
      by apply (sort_Slice_perm (fun s => order_of (Stage s))).
    rewrite Hp, join_results, Hres. simpl.
    apply Forall_forall. intros s Hin.
    apply list_elem_of_In, in_flat_map in Hin as (i & _ & Hin).
    destruct (wg sc3 !! i) as [task|] eqn:E; [|done].
    unfold finish in Hin. destruct task as [stage [[at_ buf]|]]; simpl in Hin; [|done].
    destruct Hin as [<-|[]]. simpl.
    apply (Forall_lookup_1 _ _ _ _ Hwg E).
  - apply (sort_Slice_sorted (fun s => order_of (Stage s))).
Qed.

(** X15.  The screenshots of every result carry one of the three stages,
    load, firstContentfulPaint or networkIdle, and are in the order of
    [lifecycleOrder], whatever the order in which the goroutines
    finished. *)
Theorem result_screenshots_are_ordered
    (browser : navigation -> behaviour) (opts : Options) (r : Result) :
  Capture browser opts = Returned r ->
  Forall (fun s => known_stage (Stage s)) (ResScreenshots r)
  /\ StronglySorted (le_by (fun s => order_of (Stage s))) (ResScreenshots r).
Proof.
  intros Hret.
  destruct (Capture_screenshots _ _ _ Hret) as (sc3 & -> & Hsc3).
  apply wait_known_and_sorted.
  assert (Hw : shots_ok (sc (awaited (browser (asked opts)) opts).1)).
  { unfold awaited, navigated. apply wait_blocking_shots_ok, steps_shots_ok.
    split; [done|constructor]. }
  destruct Hsc3 as [->|[_ ->]]; [exact Hw|].
  destruct Hw as [Hres Hwg]. split; [done|]. simpl.
  apply Forall_app. split; [done|]. constructor; [|constructor]. right. by right.
Qed.

Lemma result_screenshots_are_ordered_witness :
  match Capture (fun _ => lively_page) screenshot_options with
  | Returned r =>
      List.map Stage (ResScreenshots r)
      = [StageDocumentLoad; StageFirstContentfulPaint; StageNetworkIdle]
      /\ StronglySorted (le_by (fun s => order_of (Stage s))) (ResScreenshots r)
  | _ => False
  end.
Proof.
  destruct (Capture (fun _ => lively_page) screenshot_options) as [r|e|] eqn:E.
  - split.
    + vm_compute in E. injection E as <-. reflexivity.
    + apply (result_screenshots_are_ordered (fun _ => lively_page) screenshot_options r E).
  - vm_compute in E. discriminate E.
  - vm_compute in E. discriminate E.
Defined.

(* ------------------------------------------------------------------- *)
(** *** A full buffer *)




(* ------------------------------------------------------------------- *)
(** *** What the listener buffers *)

Lemma step_stays_stopped screenshots shots w a :
  listener w <> Listening -> listener (step screenshots shots w a) = listener w.
Proof.
  intros Hl. destruct a as [ev|]; simpl; [|done].
  destruct (listener w) eqn:E; [by destruct Hl|done|done].
Qed.

Lemma step_listening screenshots shots w a :
  listener (step screenshots shots w a) = Listening -> listener w = Listening.
Proof.
  intros H. destruct (listener w) eqn:E; [done| |];
    rewrite step_stays_stopped in H by congruence; congruence.
Qed.

Lemma steps_listening screenshots shots trace : forall w,
  listener (fold_left (step screenshots shots) trace w) = Listening ->
  listener w = Listening.
Proof.
  induction trace as [|a trace IH]; intros w H; [done|].
  simpl in H. apply IH in H. by apply step_listening in H.
Qed.

Lemma send_buffer c v c' : send c v = Some c' -> resultCh c' = resultCh c ++ [v].
Proof. unfold send. destruct (_ <? _)%nat; [|done]. by intros [= <-]. Qed.

Lemma sent_listening w (r : gmap string pendingRequest * option collector) :
  listener (sent w r) = Listening ->
  exists c', r.2 = Some c' /\ store (sent w r) = r.1 /\ coll (sent w r) = c'.
Proof. unfold sent. destruct r.2 as [c'|]; simpl; [by exists c'|done]. Qed.

Lemma pages_of_app l1 l2 : pages_of (l1 ++ l2) = pages_of l1 ++ pages_of l2.
Proof. apply omap_app. Qed.

Lemma entries_of_app l1 l2 : entries_of (l1 ++ l2) = entries_of l1 ++ entries_of l2.
Proof. apply omap_app. Qed.

Lemma steps_buffer screenshots shots trace : forall w,
  listener (fold_left (step screenshots shots) trace w) = Listening ->
  let w' := fold_left (step screenshots shots) trace w in
  store w' = (run_calls (calls_of trace) (store w)).1
  /\ entries_of (resultCh (coll w'))
     = entries_of (resultCh (coll w)) ++ (run_calls (calls_of trace) (store w)).2
  /\ pages_of (resultCh (coll w')) = pages_of (resultCh (coll w)) ++ pages_in trace.
Proof.
  induction trace as [|a trace IH]; intros w Hl.
  { simpl. by rewrite !app_nil_r. }
  simpl in Hl. pose proof (steps_listening _ _ _ _ Hl) as Hl1.
  assert (Hl0 : listener w = Listening) by (by apply step_listening in Hl1).
  specialize (IH _ Hl). cbv zeta in IH. cbv zeta. simpl fold_left.
  destruct IH as (IHs & IHe & IHp). rewrite IHs, IHe, IHp. clear IHs IHe IHp.
  destruct a as [[ev|ev|name|]|]; simpl in *; rewrite ?Hl0 in *; simpl in *.
  - apply sent_listening in Hl1 as (c' & Hc & Hst & Hco). rewrite Hst, Hco.
    unfold onRequest in *. fold (pending_of ev) in *. fold (page_of ev) in *.
    destruct (bool_decide (SentType ev = ResourceTypeDocument)); simpl in *.
    + apply send_buffer in Hc. rewrite Hc, pages_of_app, entries_of_app. simpl.
      rewrite app_nil_r, <- app_assoc. done.
    + injection Hc as <-. done.
  - apply sent_listening in Hl1 as (c' & Hc & Hst & Hco). rewrite Hst, Hco.
    unfold onResponse in *.
    destruct (correlate (store w) ev) as [[e|] st'] eqn:E; simpl in *.
    + apply send_buffer in Hc. rewrite Hc, pages_of_app, entries_of_app. simpl.
      destruct (run_calls (calls_of trace) st') as [s'' out]. simpl.
      rewrite app_nil_r, <- app_assoc. done.
    + injection Hc as <-.
      destruct (run_calls (calls_of trace) st') as [s'' out]. done.
  - destruct (_ || _); [done|]. case_bool_decide; [|done].
    unfold markDone, onceCloser_close, close_chan.
    destruct (negb _); [|done]. destruct (doneClosed (coll w)); done.
  - done.
  - done.
Qed.

(** X28.  As long as the listener has not been blocked, the session holds
    what the correlator makes of the events handled so far: the store is
    the one that the registrations and correlations of the request and
    response events lead to, the buffered entries are the entries these
    pair, in order, and the buffered pages are those of the document
    requests, in order. *)
Theorem listener_buffers_what_the_correlator_pairs
    (screenshots : bool) (shots : nat -> shot) (trace : list action) :
  let w := fold_left (step screenshots shots) trace newSession in
  listener w = Listening ->
  store w = (run_calls (calls_of trace) newRequestStore).1
  /\ entries_of (resultCh (coll w)) = (run_calls (calls_of trace) newRequestStore).2
  /\ pages_of (resultCh (coll w)) = pages_in trace.
Proof.
  intros w Hl. exact (steps_buffer screenshots shots trace newSession Hl).
Qed.

Lemma listener_buffers_what_the_correlator_pairs_witness :
  let trace := [Deliver (RequestWillBeSent (sample_request "7" ResourceTypeDocument));
                Deliver (ResponseReceived (sample_response "9" ∅));
                Deliver (ResponseReceived (sample_response "7" ∅));
                Deliver (ResponseReceived (sample_response "7" ∅));
                idle] in
  let w := fold_left (step false (fun _ => None)) trace newSession in
  List.map (fun e => RecvRequestID (response e)) (entries_of (resultCh (coll w)))
  = ["7"%string]
  /\ List.map PageID (pages_of (resultCh (coll w))) = ["page_7"%string].
Proof.
  intros trace w.
  destruct (listener_buffers_what_the_correlator_pairs false (fun _ => None) trace eq_refl)
    as (_ & He & Hp).
  fold w in He, Hp. rewrite He, Hp. split; reflexivity.
Defined.

End CaptureMore.

(* ===================================================================== *)
(** ** Further properties of internal/operation *)
(* ===================================================================== *)

Module OperationMore.
Import Errors Storage Operation Runs Samples CaptureProps OperationProps.

(* ------------------------------------------------------------------- *)
(** *** The store, continued *)

(** X17.  [Create] files a pending operation, with the URL and the clock
    readings given and nothing else set, under its identifier; [Get] of
    that identifier returns the record [Create] returned, and [Get] of any
    other identifier answers as before. *)
Theorem create_then_get (s : gmap string Operation) (url id : string) (now1 now2 : Z) :
  let op := (Create s url id now1 now2).1 in
  let s' := (Create s url id now1 now2).2 in
  Get s' id = inl op
  /\ op = {| ID := id; OpStatus := StatusPending; OpURL := url;
             CreatedAt := now1; UpdatedAt := now2; OpTTFB := 0; OpTimedOut := false;
             Artefacts := []; OpError := EmptyString |}
  /\ (forall id', id' <> id -> Get s' id' = Get s id').
Proof.
  intros op s'. subst op s'. unfold Create, Get. simpl.
  split; [by rewrite lookup_insert_eq|]. split; [done|].
  intros id' Hne. by rewrite lookup_insert_ne.
Qed.

Lemma update_identity (s : gmap string Operation) id fn now :
  (forall op, ID (fn op) = ID op /\ OpURL (fn op) = OpURL op
              /\ CreatedAt (fn op) = CreatedAt op) ->
  dom (update s id fn now).2 = dom s
  /\ forall k op, s !! k = Some op ->
       exists op', (update s id fn now).2 !! k = Some op'
                   /\ ID op' = ID op /\ OpURL op' = OpURL op
                   /\ CreatedAt op' = CreatedAt op.
Proof.
  intros Hfn. unfold update. destruct (s !! id) as [op0|] eqn:E; simpl.
  - split.
    + apply dom_insert_lookup_L. by rewrite E.
    + intros k op Hk. destruct (decide (k = id)) as [->|Hne].
      * rewrite lookup_insert_eq. eexists. split; [done|].
        rewrite E in Hk. injection Hk as <-. simpl. apply Hfn.
      * rewrite lookup_insert_ne by done. by exists op.
  - split; [done|]. intros k op Hk. by exists op.
Qed.

(** X18.  The mark operations neither add nor remove an operation, and
    leave the identifier, the URL and the creation time of every operation
    as they are, whether the identifier they are given is known or not. *)
Theorem marks_keep_identity (s : gmap string Operation) (c : store_call) :
  (forall url id now1 now2, c <> CallCreate url id now1 now2) ->
  dom (store_step s c) = dom s
  /\ forall k op, s !! k = Some op ->
       exists op', store_step s c !! k = Some op'
                   /\ ID op' = ID op /\ OpURL op' = OpURL op
                   /\ CreatedAt op' = CreatedAt op.
Proof.
  intros Hc. destruct c as [url id n1 n2|id now|id ttfb timedOut arts now|id err now];
    simpl.
  - by destruct (Hc url id n1 n2).
  - by apply update_identity.
  - by apply update_identity.
  - by apply update_identity.
Qed.

Lemma marks_keep_identity_witness :
  dom (store_step sample_store (CallMarkFailed "op-1" Canceled 1700000005)) = dom sample_store
  /\ exists op',
       store_step sample_store (CallMarkFailed "op-1" Canceled 1700000005) !! "op-1"
       = Some op'
       /\ ID op' = "op-1"%string /\ OpURL op' = "https://example.com/"%string
       /\ CreatedAt op' = 1700000000%Z.
Proof.
  destruct (marks_keep_identity sample_store (CallMarkFailed "op-1" Canceled 1700000005))
    as [Hd Hk]; [discriminate|].
  split; [exact Hd|].
  destruct (Hk "op-1"%string _ eq_refl) as (op' & Hop' & H1 & H2 & H3).
  exists op'. split; [exact Hop'|]. split; [exact H1|]. split; [exact H2|exact H3].
Defined.

Lemma update_keyed (s : gmap string Operation) id fn now :
  (forall op, ID (fn op) = ID op) ->
  map_Forall (fun k op => ID op = k) s ->
  map_Forall (fun k op => ID op = k) (update s id fn now).2.
Proof.
  intros Hfn Hs. unfold update. destruct (s !! id) as [op0|] eqn:E; simpl; [|done].
  apply map_Forall_insert_2; [|done]. simpl. rewrite Hfn. by apply (Hs id).
Qed.

Lemma store_step_keyed s c :
  map_Forall (fun k op => ID op = k) s ->
  map_Forall (fun k op => ID op = k) (store_step s c).
Proof.
  intros Hs. destruct c; simpl; try (by apply update_keyed).
  by apply map_Forall_insert_2.
Qed.

(** X19.  In every store that [Create] and the mark operations build from
    the empty one, each record is filed under its own identifier. *)
Theorem records_are_filed_under_their_id (cs : list store_call) :
  map_Forall (fun k op => ID op = k) (store_run cs NewMemoryStore).
Proof.
  unfold store_run.
  assert (H : forall s, map_Forall (fun k op => ID op = k) s ->
                        map_Forall (fun k op => ID op = k) (fold_left store_step cs s)).
  { induction cs as [|c cs IH]; intros s Hs; [done|]. simpl.
    apply IH. by apply store_step_keyed. }
  apply H. apply map_Forall_empty.
Qed.

(* ------------------------------------------------------------------- *)
(** *** The worker *)

Lemma uploadScreenshots_names date id up shots : forall i acc arts,
  uploadScreenshots date id up i shots acc = inl arts ->
  List.map ArtName arts
  = List.map ArtName acc
    ++ List.map (fun s => "screenshot_" +:+ Capture.Stage s) shots.
Proof.
  induction shots as [|s shots IH]; intros i acc arts H; simpl in H.
  - injection H as <-. by rewrite app_nil_r.
  - destruct (up _) as [uploaded|err]; [|done].
    apply IH in H. rewrite H, map_app. simpl. by rewrite <- app_assoc.
Qed.

Lemma uploadScreenshots_succeeds date id (up : UploadRequest -> UploadResult + error) shots :
  (forall req, exists u, up req = inl u) ->
  forall i acc, exists arts, uploadScreenshots date id up i shots acc = inl arts.
Proof.
  intros Hup. induction shots as [|s shots IH]; intros i acc; simpl; [by eexists|].
  destruct (Hup {| ObjectName :=
                     objectPath date id
                       ("screenshot_" +:+ fmt_02d (i + 1) +:+ "_" +:+ Capture.Stage s
                          +:+ ".png");
                   Content := Capture.PNG s; ContentType := "image/png" |}) as [u Hu].
  rewrite Hu. apply IH.
Qed.

(** X20.  When [uploadArtefacts] succeeds, the artefacts are the archive,
    named har, followed by one artefact per screenshot of the result, in
    the order of the result and named after its stage.  It succeeds when
    the archive serialises and no upload fails, and it returns the error of
    the archive upload as it is when that upload fails. *)
Theorem artefacts_follow_the_result (env : surroundings) (id : string)
    (r : Capture.Result) (up : UploadRequest -> UploadResult + error) :
  (forall arts,
     uploadArtefacts env id r up = inl arts ->
     List.map ArtName arts
     = "har"%string
       :: List.map (fun s => "screenshot_" +:+ Capture.Stage s) (Capture.ResScreenshots r)
     /\ length arts = S (length (Capture.ResScreenshots r)))
  /\ (forall harJSON,
        marshal env (Capture.ResHAR r) = inl harJSON ->
        (forall req, exists u, up req = inl u) ->
        exists arts, uploadArtefacts env id r up = inl arts)
  /\ (forall harJSON err,
        marshal env (Capture.ResHAR r) = inl harJSON ->
        up {| ObjectName := objectPath (date env) id "capture.har";
              Content := harJSON; ContentType := "application/json" |} = inr err ->
        uploadArtefacts env id r up = inr err).
Proof.
  split; [|split].
  - intros arts H. unfold uploadArtefacts in H.
    destruct (marshal env _) as [harJSON|e]; [|done].
    destruct (up _) as [uploaded|e]; [|done].
    apply uploadScreenshots_names in H. simpl in H.
    split; [exact H|].
    rewrite <- (length_map ArtName), H. simpl. by rewrite length_map.
  - intros harJSON Hm Hup. unfold uploadArtefacts. rewrite Hm.
    destruct (Hup {| ObjectName := objectPath (date env) id "capture.har";
                     Content := harJSON; ContentType := "application/json" |}) as [u Hu].
    rewrite Hu. by apply uploadScreenshots_succeeds.
  - intros harJSON err Hm Hu. unfold uploadArtefacts. by rewrite Hm, Hu.
Qed.

Lemma artefacts_follow_the_result_witness :
  let r := {| Capture.ResHAR := Capture.assembleHAR [] [] "unknown";
              Capture.TTFB := 0;
              Capture.ResScreenshots :=
                [{| Capture.Stage := Capture.StageDocumentLoad;
                    Capture.CapturedAt := 1700000001; Capture.PNG := [] |};
                 {| Capture.Stage := Capture.StageNetworkIdle;
                    Capture.CapturedAt := 1700000002; Capture.PNG := [] |}];
              Capture.TimedOut := false |} in
  exists arts,
    uploadArtefacts sample_surroundings "op-1" r sample_uploader = inl arts
    /\ List.map ArtName arts
       = ["har"; "screenshot_load"; "screenshot_networkIdle"]%string.
Proof.
  intros r.
  destruct (artefacts_follow_the_result sample_surroundings "op-1" r sample_uploader)
    as (Hn & Hs & _).
  destruct (Hs [] eq_refl) as [arts Ha].
  { intros req. eexists. reflexivity. }
  exists arts. split; [exact Ha|]. by destruct (Hn arts Ha) as [-> _].
Defined.

(** X21.  [Run] for an identifier the store does not hold stops at once:
    the store is left as it is and no other store call is made. *)
Theorem run_of_unknown_operation (env : surroundings) (opts : WorkerOptions)
    (s : gmap string Operation) :
  s !! OperationID opts = None ->
  Run env opts s = [s].
Proof.
  intros Hn. unfold Run, MarkRunning. by rewrite (update_unknown _ _ _ _ Hn).
Qed.

Lemma run_of_unknown_operation_witness :
  Run sample_surroundings sample_worker NewMemoryStore = [NewMemoryStore].
Proof. apply run_of_unknown_operation. reflexivity. Defined.

(** X22.  [Run] on an operation that holds no artefacts and no error
    message leaves it either complete, with the time to first byte and the
    timed-out flag of the capture, the artefacts of the upload and still no
    error message, or failed, with no artefacts and the message of the
    capture error or of the upload error behind the prefix that names the
    step.  In both cases the clock reading of the last store call is its
    update time, and its identifier, URL and creation time are as
    before. *)
Theorem run_outcome_is_recorded (env : surroundings) (opts : WorkerOptions)
    (s : gmap string Operation) (op : Operation) :
  s !! OperationID opts = Some op ->
  Artefacts op = [] ->
  OpError op = EmptyString ->
  let id := OperationID opts in
  let captured := Capture.Capture (browser env) (CaptureOptions opts) in
  exists op',
    final (Run env opts s) !! id = Some op'
    /\ (ID op', OpURL op', CreatedAt op') = (ID op, OpURL op, CreatedAt op)
    /\ UpdatedAt op' = nowDone env
    /\ ((exists r arts,
           captured = Capture.Returned r
           /\ uploadArtefacts env id r (Uploader opts) = inl arts
           /\ OpStatus op' = StatusComplete
           /\ (OpTTFB op', OpTimedOut op', Artefacts op')
              = (Capture.TTFB r, Capture.TimedOut r, arts)
           /\ OpError op' = EmptyString)
        \/ (exists err,
              captured = Capture.Failed err
              /\ OpStatus op' = StatusFailed
              /\ Artefacts op' = []
              /\ OpError op' = "capture: " +:+ Error err)
        \/ (exists r err,
              captured = Capture.Returned r
              /\ uploadArtefacts env id r (Uploader opts) = inr err
              /\ OpStatus op' = StatusFailed
              /\ Artefacts op' = []
              /\ OpError op' = "upload: " +:+ Error err)).
Proof.
  intros Hk Harts Herr id captured. subst captured.
  unfold Run. fold id. unfold MarkRunning.
  rewrite (update_known _ _ _ _ _ Hk). fold id.
  set (s1 := <[id := touch (nowRunning env) (set_running op)]> s).
  assert (Hk1 : s1 !! id = Some (touch (nowRunning env) (set_running op)))
    by apply lookup_insert_eq.
  destruct (Capture.Capture _ _) as [r|e|] eqn:E.
  - destruct (uploadArtefacts _ _ _ _) as [arts|err] eqn:Eu.
    + unfold final, MarkComplete. simpl.
      rewrite (known_after_update _ _ _ _ _ Hk1).
      eexists. split; [reflexivity|]. simpl. split; [done|]. split; [done|].
      left. exists r, arts. rewrite Herr. done.
    + unfold final, MarkFailed. simpl.
      rewrite (known_after_update _ _ _ _ _ Hk1).
      eexists. split; [reflexivity|]. simpl. split; [done|]. split; [done|].
      right. right. exists r, err. rewrite Harts. done.
  - unfold final, MarkFailed. simpl.
    rewrite (known_after_update _ _ _ _ _ Hk1).
    eexists. split; [reflexivity|]. simpl. split; [done|]. split; [done|].
    right. left. exists e. rewrite Harts. done.
  - by apply Capture_never_crashes in E.
Qed.

Lemma run_outcome_is_recorded_witness :
  exists op',
    final (Run sample_surroundings sample_worker sample_store) !! "op-1" = Some op'
    /\ UpdatedAt op' = 1700000002%Z
    /\ OpStatus op' = StatusComplete
    /\ List.map ArtName (Artefacts op') = ["har"%string].
Proof.
  destruct (run_outcome_is_recorded sample_surroundings sample_worker sample_store
              _ eq_refl eq_refl eq_refl) as (op' & Hf & _ & Hu & _).
  exists op'. split; [exact Hf|]. split; [exact Hu|].
  vm_compute in Hf. injection Hf as <-. split; reflexivity.
Defined.

(** The operation a run was started for ends complete or failed. *)
Lemma Run_final_known (env : surroundings) (opts : WorkerOptions)
    (s : gmap string Operation) (op : Operation) :
  s !! OperationID opts = Some op ->
  exists op',
    final (Run env opts s) !! OperationID opts = Some op'
    /\ (OpStatus op' = StatusComplete \/ OpStatus op' = StatusFailed)
    /\ OpURL op' = OpURL op.
Proof.
  intros Hk. unfold Run, MarkRunning. rewrite (update_known _ _ _ _ _ Hk).
  set (id := OperationID opts) in *.
  set (s1 := <[id := touch (nowRunning env) (set_running op)]> s).
  assert (Hk1 : s1 !! id = Some (touch (nowRunning env) (set_running op)))
    by apply lookup_insert_eq.
  destruct (Capture.Capture _ _) as [r|e|] eqn:E.
  - destruct (uploadArtefacts _ _ _ _) as [arts|err].
    + unfold final, MarkComplete. simpl. rewrite (known_after_update _ _ _ _ _ Hk1).
      eexists. split; [reflexivity|]. simpl. auto.
    + unfold final, MarkFailed. simpl. rewrite (known_after_update _ _ _ _ _ Hk1).
      eexists. split; [reflexivity|]. simpl. auto.
  - unfold final, MarkFailed. simpl. rewrite (known_after_update _ _ _ _ _ Hk1).
    eexists. split; [reflexivity|]. simpl. auto.
  - by apply Capture_never_crashes in E.
Qed.

End OperationMore.

(* ===================================================================== *)
(** ** Properties of internal/server *)
(* ===================================================================== *)

Module ServerProps.
Import Errors Storage Operation Server Runs Samples OperationProps OperationMore.

(** X23.  POST /captures answers 400 or 202.  It answers 400 exactly when
    the body does not decode, the URL is missing, or a timeout that is
    given does not parse; then no operation is created and no worker is
    started.  A missing URL gets the message that the URL is required. *)
Theorem create_turns_down_without_effect (srv : Server) (env : request_env)
    (st : gmap string Operation) :
  let res := handleCreateCapture srv env st in
  (code res.1.1 = StatusBadRequest \/ code res.1.1 = StatusAccepted)
  /\ (code res.1.1 = StatusBadRequest <-> turned_down env)
  /\ (code res.1.1 = StatusBadRequest -> res.1.2 = st /\ res.2 = None)
  /\ (forall req, Decode env = inl req -> ReqURL req = EmptyString ->
        res = (writeError StatusBadRequest "url is required", st, None)).
Proof.
  unfold handleCreateCapture, turned_down.
  destruct (Decode env) as [req|err]; simpl.
  2: { split; [by left|]. split; [done|]. split; [done|]. by intros req [=]. }
  destruct (bool_decide (ReqURL req = EmptyString)) eqn:Eu; simpl.
  { apply bool_decide_eq_true in Eu.
    split; [by left|]. split; [split; [by left|done]|]. split; [done|].
    by intros req' [= <-] _. }
  apply bool_decide_eq_false in Eu.
  destruct (bool_decide (ReqNavigationTimeout req <> EmptyString)) eqn:En.
  - apply bool_decide_eq_true in En.
    destruct (ParseDuration env (ReqNavigationTimeout req)) as [dn|errn] eqn:Epn; simpl.
    + destruct (bool_decide (ReqTotalTimeout req <> EmptyString)) eqn:Et.
      * apply bool_decide_eq_true in Et.
        destruct (ParseDuration env (ReqTotalTimeout req)) as [dt|errt] eqn:Ept; simpl.
        -- split; [by right|]. split; [|split; [done|by intros req' [= <-] ?]].
           split; [done|]. intros [?|[(_ & e & ?)|(_ & e & ?)]]; done.
        -- split; [by left|]. split; [|split; [done|by intros req' [= <-] ?]].
           split; [|done]. intros _. right. right. split; [done|]. by exists errt.
      * apply bool_decide_eq_false in Et. simpl.
        split; [by right|]. split; [|split; [done|by intros req' [= <-] ?]].
        split; [done|]. intros [?|[(_ & e & ?)|(Hne & _)]]; [done|done|].
        by destruct Et.
    + split; [by left|]. split; [|split; [done|by intros req' [= <-] ?]].
      split; [|done]. intros _. right. left. split; [done|]. by exists errn.
  - apply bool_decide_eq_false in En. simpl.
    destruct (bool_decide (ReqTotalTimeout req <> EmptyString)) eqn:Et.
    + apply bool_decide_eq_true in Et.
      destruct (ParseDuration env (ReqTotalTimeout req)) as [dt|errt] eqn:Ept; simpl.
      * split; [by right|]. split; [|split; [done|by intros req' [= <-] ?]].
        split; [done|]. intros [?|[(Hne & _)|(_ & e & ?)]]; [done| |done].
        by destruct En.
      * split; [by left|]. split; [|split; [done|by intros req' [= <-] ?]].
        split; [|done]. intros _. right. right. split; [done|]. by exists errt.
    + apply bool_decide_eq_false in Et. simpl.
      split; [by right|]. split; [|split; [done|by intros req' [= <-] ?]].
      split; [done|]. intros [?|[(Hne & _)|(Hne & _)]]; [done| |].
      * by destruct En.
      * by destruct Et.
Qed.

Lemma create_turns_down_without_effect_witness :
  handleCreateCapture sample_server (sample_post EmptyString "5s") sample_store
  = (writeError StatusBadRequest "url is required", sample_store, None)
  /\ (let res := handleCreateCapture sample_server
                   (sample_post "https://example.com/" "soon") sample_store in
      code res.1.1 = StatusBadRequest /\ res.1.2 = sample_store /\ res.2 = None).
Proof.
  split.
  - destruct (create_turns_down_without_effect sample_server
                (sample_post EmptyString "5s") sample_store) as (_ & _ & _ & H).
    apply (H _ eq_refl). reflexivity.
  - destruct (create_turns_down_without_effect sample_server
                (sample_post "https://example.com/" "soon") sample_store)
      as (_ & Hiff & Hst & _).
    assert (Hc : code (handleCreateCapture sample_server
                         (sample_post "https://example.com/" "soon") sample_store).1.1
                 = StatusBadRequest).
    { apply Hiff. right. left. split; [discriminate|]. eexists. reflexivity. }
    split; [exact Hc|]. apply Hst. exact Hc.
Defined.

(** X24.  POST /captures with a URL and with timeouts that are left out or
    parse answers 202 with the new identifier and the status pending,
    files a pending operation for the URL under that identifier and leaves
    the other operations alone, and starts one worker, for that identifier,
    with the server's uploader and with the default options in which the
    URL, the screenshot flag and the timeouts given replace the defaults. *)
Theorem create_accepts (srv : Server) (env : request_env) (st : gmap string Operation)
    (req : createCaptureRequest) (nav total : Z) :
  Decode env = inl req ->
  ReqURL req <> EmptyString ->
  (ReqNavigationTimeout req = EmptyString
     /\ nav = Capture.NavigationTimeout (defaultCaptureOptions srv)
   \/ ReqNavigationTimeout req <> EmptyString
      /\ ParseDuration env (ReqNavigationTimeout req) = inl nav) ->
  (ReqTotalTimeout req = EmptyString
     /\ total = Capture.TotalTimeout (defaultCaptureOptions srv)
   \/ ReqTotalTimeout req <> EmptyString
      /\ ParseDuration env (ReqTotalTimeout req) = inl total) ->
  let st' := (Create st (ReqURL req) (newID env) (now1 env) (now2 env)).2 in
  handleCreateCapture srv env st
  = ({| code := StatusAccepted; payload := CreatedBody (newID env) "pending" |},
     st',
     Some {| CaptureOptions :=
               {| Capture.OptURL := ReqURL req;
                  Capture.NavigationTimeout := nav;
                  Capture.TotalTimeout := total;
                  Capture.OptBrowserVersion :=
                    Capture.OptBrowserVersion (defaultCaptureOptions srv);
                  Capture.Screenshots := ReqScreenshots req;
                  Capture.ViewportWidth := Capture.ViewportWidth (defaultCaptureOptions srv);
                  Capture.ViewportHeight :=
                    Capture.ViewportHeight (defaultCaptureOptions srv) |};
             OperationID := newID env;
             Uploader := uploader srv |})
  /\ (exists op, st' !! newID env = Some op
                 /\ OpStatus op = StatusPending /\ OpURL op = ReqURL req)
  /\ (forall id, id <> newID env -> st' !! id = st !! id).
Proof.
  intros Hd Hurl Hnav Htot st'. split; [|split].
  - unfold handleCreateCapture. rewrite Hd.
    rewrite bool_decide_eq_false_2 by done.
    destruct Hnav as [[Hn ->]|[Hn Hpn]], Htot as [[Ht ->]|[Ht Hpt]].
    + rewrite !bool_decide_eq_false_2 by (intros H; by apply H). reflexivity.
    + rewrite (bool_decide_eq_false_2 (ReqNavigationTimeout req <> _))
        by (intros H; by apply H).
      rewrite bool_decide_eq_true_2 by done. rewrite Hpt. reflexivity.
    + rewrite bool_decide_eq_true_2 by done. rewrite Hpn.
      rewrite bool_decide_eq_false_2 by (intros H; by apply H). reflexivity.
    + rewrite bool_decide_eq_true_2 by done. rewrite Hpn.
      rewrite bool_decide_eq_true_2 by done. rewrite Hpt. reflexivity.
  - subst st'. unfold Create. simpl. eexists. rewrite lookup_insert_eq. done.
  - intros id Hne. subst st'. unfold Create. simpl. by rewrite lookup_insert_ne.
Qed.

Lemma create_accepts_witness :
  let res := handleCreateCapture sample_server
               (sample_post "https://example.com/" "5s") sample_store in
  code res.1.1 = StatusAccepted
  /\ status_of res.1.2 "op-2" = Some StatusPending
  /\ (Capture.NavigationTimeout <$> (CaptureOptions <$> res.2)) = Some 5000000000%Z
  /\ (Capture.TotalTimeout <$> (CaptureOptions <$> res.2)) = Some 30000000000%Z.
Proof.
  intros res. subst res.
  destruct (create_accepts sample_server (sample_post "https://example.com/" "5s")
              sample_store _ (5 * Capture.Second)%Z (30 * Capture.Second)%Z eq_refl)
    as (H & _ & _).
  - discriminate.
  - right. split; [discriminate|reflexivity].
  - left. split; reflexivity.
  - rewrite H. repeat split.
Defined.

(** X25.  GET /captures/{id} answers 400 for an empty identifier, 404 with
    the not-found message for an identifier the store does not hold, and
    200 with the record for one it holds. *)
Theorem get_capture_replies (id : string) (st : gmap string Operation) :
  (id = EmptyString ->
     handleGetCapture id st = writeError StatusBadRequest "operation id is required")
  /\ (id <> EmptyString -> st !! id = None ->
      handleGetCapture id st
      = writeError StatusNotFound ("operation " +:+ Quote id +:+ " not found"))
  /\ (id <> EmptyString -> forall op, st !! id = Some op ->
      handleGetCapture id st = {| code := StatusOK; payload := OperationBody op |}).
Proof.
  unfold handleGetCapture, Get. split; [|split].
  - intros ->. done.
  - intros Hne Hn. rewrite bool_decide_eq_false_2 by done. by rewrite Hn.
  - intros Hne op Hk. rewrite bool_decide_eq_false_2 by done. by rewrite Hk.
Qed.

Lemma get_capture_replies_witness :
  code (handleGetCapture "op-9" sample_store) = StatusNotFound
  /\ code (handleGetCapture "op-1" sample_store) = StatusOK.
Proof.
  destruct (get_capture_replies "op-9" sample_store) as (_ & Hn & _).
  destruct (get_capture_replies "op-1" sample_store) as (_ & _ & Hk).
  split.
  - rewrite Hn; [reflexivity|discriminate|reflexivity].
  - rewrite (Hk ltac:(discriminate) _ eq_refl). reflexivity.
Defined.

(** X26.  From request to poll: when POST /captures has accepted a request
    and the worker it started has run on the store it left, GET for the
    identifier that was returned answers 200 with an operation for the
    requested URL that is complete or failed, whatever the browser and the
    uploader did. *)
Theorem accepted_capture_ends_terminal
    (srv : Server) (env : request_env) (st st' : gmap string Operation)
    (rep : reply) (job : WorkerOptions) (around : surroundings) :
  handleCreateCapture srv env st = (rep, st', Some job) ->
  newID env <> EmptyString ->
  exists req op,
    Decode env = inl req
    /\ rep = {| code := StatusAccepted; payload := CreatedBody (newID env) "pending" |}
    /\ handleGetCapture (newID env) (final (Run around job st'))
       = {| code := StatusOK; payload := OperationBody op |}
    /\ (OpStatus op = StatusComplete \/ OpStatus op = StatusFailed)
    /\ OpURL op = ReqURL req.
Proof.
  intros Hh Hid.
  assert (Hshape : exists req opts,
            Decode env = inl req
            /\ rep = {| code := StatusAccepted;
                        payload := CreatedBody (newID env) "pending" |}
            /\ st' = (Create st (ReqURL req) (newID env) (now1 env) (now2 env)).2
            /\ job = {| CaptureOptions := opts; OperationID := newID env;
                        Uploader := uploader srv |}).
  { unfold handleCreateCapture in Hh.
    destruct (Decode env) as [req|err]; [|done].
    destruct (bool_decide (ReqURL req = EmptyString)); [done|].
    destruct (bool_decide (ReqNavigationTimeout req <> EmptyString));
      [destruct (ParseDuration env (ReqNavigationTimeout req)); [|done]|];
      (destruct (bool_decide (ReqTotalTimeout req <> EmptyString));
        [destruct (ParseDuration env (ReqTotalTimeout req)); [|done]|]);
      simpl in Hh; injection Hh as <- <- <-; eexists _, _; done. }
  destruct Hshape as (req & opts & Hd & -> & -> & ->).
  set (s1 := (Create st (ReqURL req) (newID env) (now1 env) (now2 env)).2).
  assert (Hk : s1 !! newID env
               = Some (Create st (ReqURL req) (newID env) (now1 env) (now2 env)).1)
    by apply lookup_insert_eq.
  destruct (Run_final_known around
              {| CaptureOptions := opts; OperationID := newID env;
                 Uploader := uploader srv |} s1 _ Hk) as (op' & Hf & Hst & Hu).
  simpl in Hf. exists req, op'. split; [done|]. split; [done|].
  split; [|split; [exact Hst|exact Hu]].
  unfold handleGetCapture, Get. rewrite bool_decide_eq_false_2 by done.
  by rewrite Hf.
Qed.

Lemma accepted_capture_ends_terminal_witness :
  let res := handleCreateCapture sample_server
               (sample_post "https://example.com/" "5s") sample_store in
  match res.2 with
  | Some job =>
      exists op,
        handleGetCapture "op-2" (final (Run sample_surroundings job res.1.2))
        = {| code := StatusOK; payload := OperationBody op |}
        /\ (OpStatus op = StatusComplete \/ OpStatus op = StatusFailed)
  | None => False
  end.
Proof.
  intros res.
  destruct res as [[rep st'] [job|]] eqn:E; [|vm_compute in E; discriminate E].
  simpl.
  destruct (accepted_capture_ends_terminal sample_server
              (sample_post "https://example.com/" "5s") sample_store st' rep job
              sample_surroundings E) as (req & op & _ & _ & Hg & Hs & _).
  - discriminate.
  - exists op. split; [exact Hg|exact Hs].
Defined.

End ServerProps.
